(** * primesieve: the facade, the iterator's batch sizing, the [-c] option
      and the integer helpers of [pmath.hpp]

    A shallow embedding of
    - [include/primesieve/pmath.hpp]   (module [Pmath]),
    - [src/soe/PrimeSieve.cpp]         (module [Soe]),
    - [src/soe/iterator.cpp]           (module [Iter]),
    - [src/console/cmdoptions.cpp]     (module [Cmd]),
    with the C++ values they share (module [Cxx]) and the prime-counting
    function the statements speak of (module [Primes]), followed by the
    properties proved about them.

    Conventions.  Unsigned integers of [pmath.hpp] are [N] with the
    wrap-around of the instantiated width written out; the 64-bit
    fields of the facade and of the iterator are [Z] reduced modulo
    [2^64]; [int] values are [Z]; [double] is Rocq's binary64 [float].
    Functions that throw return a [Result] together with the state the
    object is left in, because a C++ exception does not undo the
    assignments made before it. *)

From Stdlib Require Import NArith ZArith Zwf Znumtheory Lia List Bool Ascii String Floats Sorted.
From Stdlib Require Import DecimalString.
From Equations Require Import Equations.
Import ListNotations.

(* ===================================================================== *)
(** * Part I: the model                                                   *)
(* ===================================================================== *)

(** ** Well-founded orders used by the loops

    The loops of [ilog2], [isqrt] and [optionCount] run on binary
    numbers; they recurse on the order of the numbers themselves, so
    that the models evaluate on 64-bit inputs. *)

Definition N_lt_wf : WellFounded N.lt := Acc_intro_generator 64 N.lt_wf_0.
#[local] Existing Instance N_lt_wf.
Opaque N_lt_wf.

Definition Z_pos_wf : WellFounded (Zwf 0) :=
  Acc_intro_generator 64 (Zwf_well_founded 0).
#[local] Existing Instance Z_pos_wf.
Opaque Z_pos_wf.

Definition inspect {A : Type} (a : A) : {b : A | a = b} := exist _ a eq_refl.

(** ** [pmath.hpp] *)

Module Pmath.

Section Width.

(** [numberOfBits(x)]: [sizeof(T) * 8] for the unsigned type [T]. *)
Variable bits : N.

Open Scope N_scope.

(** Arithmetic in [T] is modulo [2^bits]. *)
Definition wrap (x : N) : N := x mod 2 ^ bits.

(** The loop of [ilog2]:
    [for (T i = bits / 2; i != 0; i /= 2)
       if (x >= (one << i)) { x >>= i; log2 += i; }]. *)
Equations? ilog2_loop (i x log2 : N) : N by wf i N.lt :=
  ilog2_loop i x log2 with N.eq_dec i 0 := {
    | left _ => log2
    | right _ =>
        if wrap (N.shiftl 1 i) <=? x
        then ilog2_loop (i / 2) (N.shiftr x i) (wrap (log2 + i))
        else ilog2_loop (i / 2) x log2 }.
Proof.
  all: apply N.div_lt; lia.
Qed.

Definition ilog2 (x : N) : N := ilog2_loop (bits / 2) x 0.

(** The loop of [isqrt]:
    [while (g1 < g0) { g0 = g1; g1 = (g0 + (x / g0)) >> 1; }]. *)
Equations? isqrt_loop (x g0 g1 : N) : N by wf g0 N.lt :=
  isqrt_loop x g0 g1 with inspect (g1 <? g0) := {
    | exist _ true _ => isqrt_loop x g1 (N.shiftr (wrap (g1 + x / g1)) 1)
    | exist _ false _ => g0 }.
Proof.
  now apply N.ltb_lt.
Qed.

(** [isqrt]: Newton's method from the least power of two above the
    root.  The two subtractions cannot go below zero ([x > 1] there, and
    [(bits - 1) / 2 <= bits / 2]), so the subtraction of [N] is that of
    the type. *)
Definition isqrt (x : N) : N :=
  if x <=? 1 then x
  else
    let s := wrap (wrap (bits / 2 - (bits - 1) / 2) + ilog2 (wrap (x - 1)) / 2) in
    let g0 := wrap (N.shiftl 1 s) in
    let g1 := N.shiftr (wrap (g0 + N.shiftr x s)) 1 in
    isqrt_loop x g0 g1.

(** [ceilDiv(a, b)], both of the type: [static_cast<A>((a + b - 1) / b)];
    [b] is not zero (the division by zero is undefined).  Operands of a
    type narrower than [int] (8 and 16 bits) are promoted to [int], where
    [a + b - 1] does not wrap, and the quotient is converted back to the
    type.  At 32 and 64 bits the sum wraps at the width of the type; the
    subtraction of one is written as the addition of [2^bits - 1]. *)
Definition ceilDiv (a b : N) : N :=
  if bits <? 32
  then wrap ((a + b - 1) / b)
  else wrap (wrap (a + b) + (2 ^ bits - 1)) / b.
(** [isquare(x)]. *)
Definition isquare (x : N) : N := wrap (x * x).

(** [isPowerOf2(x)]: [x != 0 && (x & (x - 1)) == 0]; the right operand
    is evaluated for [x != 0] only. *)
Definition isPowerOf2 (x : N) : bool :=
  if x =? 0 then false else N.land x (x - 1) =? 0.

(** The loop of [floorPowerOf2]:
    [for (T i = 1; i < numberOfBits(x); i += i) x |= (x >> i);].
    [i] grows by one or more in every round, so [bits] rounds of fuel
    let the loop reach its exit. *)
Fixpoint floorPowerOf2_loop (fuel : nat) (i x : N) : N :=
  match fuel with
  | O => x
  | S fuel' =>
      if i <? bits
      then floorPowerOf2_loop fuel' (wrap (i + i)) (N.lor x (N.shiftr x i))
      else x
  end.

(** [floorPowerOf2(x)]: [return x - (x >> 1)] after the loop; the
    difference cannot go below zero. *)
Definition floorPowerOf2 (x : N) : N :=
  let y := floorPowerOf2_loop (N.to_nat bits) 1 x in
  wrap (y - N.shiftr y 1).

End Width.

(** [add_overflow_safe(a, b)] on [uint64_t]; [max - b] cannot go below
    zero. *)
Definition add_overflow_safe (a b : N) : N :=
  if (2 ^ 64 - 1 - b <=? a)%N then (2 ^ 64 - 1)%N else wrap 64 (a + b).

(** [sub_underflow_safe(a, b)] on [uint64_t]. *)
Definition sub_underflow_safe (a b : N) : N :=
  if (b <? a)%N then (a - b)%N else 0%N.

(** Bit [p] of [y] is set exactly when [x] has a set bit among the [j]
    positions from [p] on. *)
Definition smeared (x y j : N) : Prop :=
  (forall p, N.testbit y p = true <-> exists q, p <= q < p + j /\ N.testbit x q = true)%N.

(** [getInBetween(min, x, max)], at the instance the facade uses
    ([T1 = T2 = T3 = int]). *)
Definition getInBetween (min x max : Z) : Z :=
  if (x <? min)%Z then min
  else if (x >? max)%Z then max
  else x.

End Pmath.

(** ** C++ values shared by the translation units *)

Module Cxx.

Open Scope Z_scope.

Definition UINT32_MAX : Z := 2 ^ 32 - 1.
Definition UINT64_MAX : Z := 2 ^ 64 - 1.
Definition INT_MIN : Z := - 2 ^ 31.

(** Arithmetic on [uint64_t] / [uint_t] is modulo [2^64] / [2^32]. *)
Definition uint64 (x : Z) : Z := x mod 2 ^ 64.
Definition uint32 (x : Z) : Z := x mod 2 ^ 32.

(** [std::ostream << v] for an unsigned [v]: its decimal digits. *)
Definition to_decimal (v : Z) : string :=
  NilZero.string_of_uint (N.to_uint (Z.to_N v)).

(** [static_cast<double>(z)] of an integer: round to nearest binary64. *)
Definition double_of_Z (z : Z) : float :=
  SF2Prim (binary_normalize prec emax z 0 false).

(** [static_cast<int>(d)]: truncation toward zero.  C++ leaves the cast
    of a NaN or an infinity undefined; the model yields [INT_MIN] there. *)
Definition int_of_double (d : float) : Z :=
  match Prim2SF d with
  | S754_zero _ => 0
  | S754_finite sign m e =>
      let v := if 0 <=? e then Z.pos m * 2 ^ e else Z.pos m / 2 ^ (- e) in
      if sign then - v else v
  | _ => INT_MIN
  end.

(** [std::min(a, b)] is [(b < a) ? b : a]. *)
Definition std_min (a b : float) : float := if (b <? a)%float then b else a.

(** [std::max(a, b)] is [(a < b) ? b : a]. *)
Definition std_max (a b : float) : float := if (a <? b)%float then b else a.

(** [static_cast<uint64_t>(d)]: truncation toward zero; undefined in C++
    outside the range of the type, where the model wraps, and for a NaN
    or an infinity, where it yields [0]. *)
Definition uint64_of_double (d : float) : Z :=
  match Prim2SF d with
  | S754_finite sign m e =>
      let v := if 0 <=? e then Z.pos m * 2 ^ e else Z.pos m / 2 ^ (- e) in
      uint64 (if sign then - v else v)
  | _ => 0
  end.

(** A call returns normally or throws; [what] is the message. *)
Inductive Result (A : Type) : Type :=
  | Ok (a : A)
  | Throw (what : string).
Arguments Ok {A} a.
Arguments Throw {A} what.

End Cxx.

(** ** Primes, for the statements *)

Module Primes.

Open Scope Z_scope.

(** Trial division. *)
Definition is_prime (n : Z) : bool :=
  (2 <=? n) &&
  forallb (fun d => negb (n mod d =? 0)) (map Z.of_nat (seq 2 (Z.to_nat n - 2))).

(** The number of primes among [lo], [lo + 1], ..., [lo + len - 1]. *)
Fixpoint count_from (lo : Z) (len : nat) : Z :=
  match len with
  | O => 0
  | S len' => (if is_prime lo then 1 else 0) + count_from (lo + 1) len'
  end.

(** The number of primes [p] with [lo <= p <= hi]. *)
Definition primes_between (lo hi : Z) : Z := count_from lo (Z.to_nat (hi - lo + 1)).

(** The prime-counting function. *)
Definition prime_pi (n : Z) : Z := primes_between 0 n.

(** The numbers [lo], [lo + 1], ..., [hi], for [lo >= 0]. *)
Definition interval (lo hi : Z) : list Z :=
  map Z.of_nat (seq (Z.to_nat lo) (Z.to_nat (hi - lo + 1))).

(** The primes [p] with [lo <= p <= hi], in increasing order. *)
Definition primes_in (lo hi : Z) : list Z := filter is_prime (interval lo hi).

End Primes.

(** ** [PrimeSieve.cpp] *)

Module Soe.

Import Cxx.
Open Scope Z_scope.

(** Function and object pointers; only their identity matters. *)
Definition ptr : Type := Z.
Definition NULL : ptr := 0.

(** *** Flags

    Modelled from the spec: [PrimeSieve.h], which declares the flag
    constants and the predicates [isFlag], [isCount], [isPrint] and
    [isStatus], is not under src/.  The spec (section 6) lists the flags
    in this order with distinct bit positions; [doSmallPrime] shifts
    [COUNT_PRIMES] and [PRINT_PRIMES] by the tuplet index, so the seven
    count flags and the seven print flags are consecutive bits; and
    [setFlags] refuses values from [1 << 20] on, which leaves the bits
    from 20 on to the callback flags that [generatePrimes] assigns
    directly. *)
Definition COUNT_PRIMES          : Z := Z.shiftl 1 0.
Definition COUNT_TWINS           : Z := Z.shiftl 1 1.
Definition COUNT_TRIPLETS        : Z := Z.shiftl 1 2.
Definition COUNT_QUADRUPLETS     : Z := Z.shiftl 1 3.
Definition COUNT_QUINTUPLETS     : Z := Z.shiftl 1 4.
Definition COUNT_SEXTUPLETS      : Z := Z.shiftl 1 5.
Definition COUNT_SEPTUPLETS      : Z := Z.shiftl 1 6.
Definition PRINT_PRIMES          : Z := Z.shiftl 1 7.
Definition PRINT_TWINS           : Z := Z.shiftl 1 8.
Definition PRINT_TRIPLETS        : Z := Z.shiftl 1 9.
Definition PRINT_QUADRUPLETS     : Z := Z.shiftl 1 10.
Definition PRINT_QUINTUPLETS     : Z := Z.shiftl 1 11.
Definition PRINT_SEXTUPLETS      : Z := Z.shiftl 1 12.
Definition PRINT_SEPTUPLETS      : Z := Z.shiftl 1 13.
Definition CALCULATE_STATUS      : Z := Z.shiftl 1 14.
Definition PRINT_STATUS          : Z := Z.shiftl 1 15.
Definition CALLBACK32_PRIMES     : Z := Z.shiftl 1 20.
Definition CALLBACK64_PRIMES     : Z := Z.shiftl 1 21.
Definition CALLBACK32_OOP_PRIMES : Z := Z.shiftl 1 22.
Definition CALLBACK64_OOP_PRIMES : Z := Z.shiftl 1 23.

(** *** The object *)

(** What a run writes to the outside: a call of a registered callback,
    a line on [std::cout], or the status line. *)
Inductive Event : Type :=
  | EvCallback32 (fn : ptr) (prime : Z)
  | EvCallback64 (fn : ptr) (prime : Z)
  | EvCallback32_OOP (fn : ptr) (prime : Z) (obj : ptr)
  | EvCallback64_OOP (fn : ptr) (prime : Z) (obj : ptr)
  | EvPrint (line : string)
  | EvStatus (percent : Z).

(** The data members of [PrimeSieve], with the types their uses in
    [PrimeSieve.cpp] show ([PrimeSieve.h] is not under src/): 64-bit
    unsigned [start_], [stop_], [counts_[7]] and [sumSegments_], [int]
    [preSieve_], [sieveSize_] and [flags_], [double] [interval_],
    [status_] and [seconds_].  [parent_] points to the object a worker
    reports its progress to; the model keeps the parent's state behind
    the pointer. *)
#[warnings="-register-all"]
Inductive PrimeSieve : Type := mkPrimeSieve {
  start_ : Z;
  stop_ : Z;
  preSieve_ : Z;
  sieveSize_ : Z;
  flags_ : Z;
  parent_ : option PrimeSieve;
  counts_ : list Z;
  sumSegments_ : Z;
  interval_ : float;
  status_ : float;
  seconds_ : float;
  callback32_ : ptr;
  callback64_ : ptr;
  callback32_OOP_ : ptr;
  callback64_OOP_ : ptr;
  obj_ : ptr }.

Definition set_start (v : Z) (s : PrimeSieve) : PrimeSieve :=
  mkPrimeSieve v (stop_ s) (preSieve_ s) (sieveSize_ s) (flags_ s) (parent_ s)
    (counts_ s) (sumSegments_ s) (interval_ s) (status_ s) (seconds_ s)
    (callback32_ s) (callback64_ s) (callback32_OOP_ s) (callback64_OOP_ s) (obj_ s).
Definition set_stop (v : Z) (s : PrimeSieve) : PrimeSieve :=
  mkPrimeSieve (start_ s) v (preSieve_ s) (sieveSize_ s) (flags_ s) (parent_ s)
    (counts_ s) (sumSegments_ s) (interval_ s) (status_ s) (seconds_ s)
    (callback32_ s) (callback64_ s) (callback32_OOP_ s) (callback64_OOP_ s) (obj_ s).
Definition set_preSieve (v : Z) (s : PrimeSieve) : PrimeSieve :=
  mkPrimeSieve (start_ s) (stop_ s) v (sieveSize_ s) (flags_ s) (parent_ s)
    (counts_ s) (sumSegments_ s) (interval_ s) (status_ s) (seconds_ s)
    (callback32_ s) (callback64_ s) (callback32_OOP_ s) (callback64_OOP_ s) (obj_ s).
Definition set_sieveSize (v : Z) (s : PrimeSieve) : PrimeSieve :=
  mkPrimeSieve (start_ s) (stop_ s) (preSieve_ s) v (flags_ s) (parent_ s)
    (counts_ s) (sumSegments_ s) (interval_ s) (status_ s) (seconds_ s)
    (callback32_ s) (callback64_ s) (callback32_OOP_ s) (callback64_OOP_ s) (obj_ s).
Definition set_flags (v : Z) (s : PrimeSieve) : PrimeSieve :=
  mkPrimeSieve (start_ s) (stop_ s) (preSieve_ s) (sieveSize_ s) v (parent_ s)
    (counts_ s) (sumSegments_ s) (interval_ s) (status_ s) (seconds_ s)
    (callback32_ s) (callback64_ s) (callback32_OOP_ s) (callback64_OOP_ s) (obj_ s).
Definition set_parent (v : option PrimeSieve) (s : PrimeSieve) : PrimeSieve :=
  mkPrimeSieve (start_ s) (stop_ s) (preSieve_ s) (sieveSize_ s) (flags_ s) v
    (counts_ s) (sumSegments_ s) (interval_ s) (status_ s) (seconds_ s)
    (callback32_ s) (callback64_ s) (callback32_OOP_ s) (callback64_OOP_ s) (obj_ s).
Definition set_counts (v : list Z) (s : PrimeSieve) : PrimeSieve :=
  mkPrimeSieve (start_ s) (stop_ s) (preSieve_ s) (sieveSize_ s) (flags_ s) (parent_ s)
    v (sumSegments_ s) (interval_ s) (status_ s) (seconds_ s)
    (callback32_ s) (callback64_ s) (callback32_OOP_ s) (callback64_OOP_ s) (obj_ s).
Definition set_sumSegments (v : Z) (s : PrimeSieve) : PrimeSieve :=
  mkPrimeSieve (start_ s) (stop_ s) (preSieve_ s) (sieveSize_ s) (flags_ s) (parent_ s)
    (counts_ s) v (interval_ s) (status_ s) (seconds_ s)
    (callback32_ s) (callback64_ s) (callback32_OOP_ s) (callback64_OOP_ s) (obj_ s).
Definition set_interval (v : float) (s : PrimeSieve) : PrimeSieve :=
  mkPrimeSieve (start_ s) (stop_ s) (preSieve_ s) (sieveSize_ s) (flags_ s) (parent_ s)
    (counts_ s) (sumSegments_ s) v (status_ s) (seconds_ s)
    (callback32_ s) (callback64_ s) (callback32_OOP_ s) (callback64_OOP_ s) (obj_ s).
Definition set_status (v : float) (s : PrimeSieve) : PrimeSieve :=
  mkPrimeSieve (start_ s) (stop_ s) (preSieve_ s) (sieveSize_ s) (flags_ s) (parent_ s)
    (counts_ s) (sumSegments_ s) (interval_ s) v (seconds_ s)
    (callback32_ s) (callback64_ s) (callback32_OOP_ s) (callback64_OOP_ s) (obj_ s).
Definition set_seconds (v : float) (s : PrimeSieve) : PrimeSieve :=
  mkPrimeSieve (start_ s) (stop_ s) (preSieve_ s) (sieveSize_ s) (flags_ s) (parent_ s)
    (counts_ s) (sumSegments_ s) (interval_ s) (status_ s) v
    (callback32_ s) (callback64_ s) (callback32_OOP_ s) (callback64_OOP_ s) (obj_ s).
Definition set_callback32 (v : ptr) (s : PrimeSieve) : PrimeSieve :=
  mkPrimeSieve (start_ s) (stop_ s) (preSieve_ s) (sieveSize_ s) (flags_ s) (parent_ s)
    (counts_ s) (sumSegments_ s) (interval_ s) (status_ s) (seconds_ s)
    v (callback64_ s) (callback32_OOP_ s) (callback64_OOP_ s) (obj_ s).
Definition set_callback64 (v : ptr) (s : PrimeSieve) : PrimeSieve :=
  mkPrimeSieve (start_ s) (stop_ s) (preSieve_ s) (sieveSize_ s) (flags_ s) (parent_ s)
    (counts_ s) (sumSegments_ s) (interval_ s) (status_ s) (seconds_ s)
    (callback32_ s) v (callback32_OOP_ s) (callback64_OOP_ s) (obj_ s).
Definition set_callback32_OOP (v : ptr) (s : PrimeSieve) : PrimeSieve :=
  mkPrimeSieve (start_ s) (stop_ s) (preSieve_ s) (sieveSize_ s) (flags_ s) (parent_ s)
    (counts_ s) (sumSegments_ s) (interval_ s) (status_ s) (seconds_ s)
    (callback32_ s) (callback64_ s) v (callback64_OOP_ s) (obj_ s).
Definition set_callback64_OOP (v : ptr) (s : PrimeSieve) : PrimeSieve :=
  mkPrimeSieve (start_ s) (stop_ s) (preSieve_ s) (sieveSize_ s) (flags_ s) (parent_ s)
    (counts_ s) (sumSegments_ s) (interval_ s) (status_ s) (seconds_ s)
    (callback32_ s) (callback64_ s) (callback32_OOP_ s) v (obj_ s).
Definition set_obj (v : ptr) (s : PrimeSieve) : PrimeSieve :=
  mkPrimeSieve (start_ s) (stop_ s) (preSieve_ s) (sieveSize_ s) (flags_ s) (parent_ s)
    (counts_ s) (sumSegments_ s) (interval_ s) (status_ s) (seconds_ s)
    (callback32_ s) (callback64_ s) (callback32_OOP_ s) (callback64_OOP_ s) v.

(** [isFlag(flag)]: [(flags_ & flag) == flag]. *)
Definition isFlag (s : PrimeSieve) (flag : Z) : bool :=
  Z.land (flags_ s) flag =? flag.
(** [isCount(index)] and [isPrint(index)]: the flag of the index-th tuplet. *)
Definition isCount (s : PrimeSieve) (index : Z) : bool :=
  isFlag s (Z.shiftl COUNT_PRIMES index).
Definition isPrint (s : PrimeSieve) (index : Z) : bool :=
  isFlag s (Z.shiftl PRINT_PRIMES index).
(** [isStatus()]: one of the two status flags is set. *)
Definition isStatus (s : PrimeSieve) : bool :=
  negb (Z.land (flags_ s) (Z.lor CALCULATE_STATUS PRINT_STATUS) =? 0).

(** *** Exceptions and state *)

(** The object together with everything written so far. *)
Definition World : Type := PrimeSieve * list Event.

Definition M (A : Type) : Type := World -> Result A * World.

Definition ret {A : Type} (a : A) : M A := fun w => (Ok a, w).
Definition bind {A B : Type} (c : M A) (k : A -> M B) : M B :=
  fun w =>
    match c w with
    | (Ok a, w') => k a w'
    | (Throw what, w') => (Throw what, w')
    end.
Definition throw {A : Type} (what : string) : M A := fun w => (Throw what, w).
Definition this : M PrimeSieve := fun w => (Ok (fst w), w).
Definition modify (f : PrimeSieve -> PrimeSieve) : M unit :=
  fun w => (Ok tt, (f (fst w), snd w)).
Definition emit (e : Event) : M unit :=
  fun w => (Ok tt, (fst w, snd w ++ [e])).
Definition when (b : bool) (c : M unit) : M unit := if b then c else ret tt.

Notation "x <- c1 ;; c2" := (bind c1 (fun x => c2))
  (at level 61, c1 at next level, right associativity).
Notation "c1 ;; c2" := (bind c1 (fun _ => c2))
  (at level 61, right associativity).

(** *** Setters and getters *)

Definition getStart (s : PrimeSieve) : Z := start_ s.
Definition getStop (s : PrimeSieve) : Z := stop_ s.
Definition getPrimeCount (s : PrimeSieve) : Z := nth 0 (counts_ s) 0.
Definition getTwinCount (s : PrimeSieve) : Z := nth 1 (counts_ s) 0.
Definition getTripletCount (s : PrimeSieve) : Z := nth 2 (counts_ s) 0.
Definition getQuadrupletCount (s : PrimeSieve) : Z := nth 3 (counts_ s) 0.
Definition getQuintupletCount (s : PrimeSieve) : Z := nth 4 (counts_ s) 0.
Definition getSextupletCount (s : PrimeSieve) : Z := nth 5 (counts_ s) 0.
Definition getSeptupletCount (s : PrimeSieve) : Z := nth 6 (counts_ s) 0.
Definition getStatus (s : PrimeSieve) : float := status_ s.
Definition getSeconds (s : PrimeSieve) : float := seconds_ s.
Definition getPreSieve (s : PrimeSieve) : Z := preSieve_ s.
Definition getSieveSize (s : PrimeSieve) : Z := sieveSize_ s.

(** [setStart]: throws from [UINT64_MAX - UINT32_MAX * 10] on. *)
Definition setStart (start : Z) : M unit :=
  if start >=? uint64 (UINT64_MAX - uint64 (UINT32_MAX * 10))
  then throw "START must be < (2^64-1) - (2^32-1) * 10"
  else modify (set_start start).

Definition setStop (stop : Z) : M unit :=
  if stop >=? uint64 (UINT64_MAX - uint64 (UINT32_MAX * 10))
  then throw "STOP must be < (2^64-1) - (2^32-1) * 10"
  else modify (set_stop stop).

Definition setPreSieve (preSieve : Z) : M unit :=
  modify (set_preSieve (Pmath.getInBetween 13 preSieve 23)).

(** Modelled from the spec: [nextPowerOf2] is declared in [imath.h], which
    is not under src/.  The spec (section 6, [set_sieve_size]) and the
    comment above [setSieveSize] say that the size "is rounded up to the
    next highest power of 2": the least power of two that is at least
    [x], which is [1] for every [x <= 1]. *)
Definition nextPowerOf2 (x : Z) : Z := 2 ^ Z.log2_up x.

Definition setSieveSize (sieveSize : Z) : M unit :=
  modify (set_sieveSize (Pmath.getInBetween 1 (nextPowerOf2 sieveSize) 4096)).

Definition setFlags (flags : Z) : M unit :=
  if flags >=? Z.shiftl 1 20
  then throw "invalid flags"
  else modify (set_flags flags).

Definition addFlags (flags : Z) : M unit :=
  if flags >=? Z.shiftl 1 20
  then throw "invalid flags"
  else modify (fun s => set_flags (Z.lor (flags_ s) flags) s).

(** *** Status *)

(** [updateStatus(segment)] on the object itself; a worker forwards the
    call to its parent. *)
Fixpoint updateStatus_obj (s : PrimeSieve) (segment : Z) : PrimeSieve * list Event :=
  match parent_ s with
  | Some p =>
      let (p', out) := updateStatus_obj p segment in
      (set_parent (Some p') s, out)
  | None =>
      let s1 := set_sumSegments (uint64 (sumSegments_ s + segment)) s in
      let old := int_of_double (status_ s1) in
      let s2 :=
        set_status
          (std_min ((double_of_Z (sumSegments_ s1) / interval_ s1) * 100) 100)%float s1 in
      if isFlag s2 PRINT_STATUS then
        let status := int_of_double (status_ s2) in
        (s2, if status >? old then [EvStatus status] else [])
      else (s2, [])
  end.

(** The object at the end of the chain of parents: the one that keeps
    the sum of the segments. *)
Fixpoint root (s : PrimeSieve) : PrimeSieve :=
  match parent_ s with
  | Some p => root p
  | None => s
  end.

Definition updateStatus (segment : Z) : M unit :=
  fun w =>
    let (s', out) := updateStatus_obj (fst w) segment in
    (Ok tt, (s', snd w ++ out)).

Definition reset : M unit :=
  modify (set_sumSegments 0) ;;
  modify (set_counts (repeat 0 7)) ;;
  modify (fun s => set_interval (double_of_Z (uint64 (stop_ s - start_ s + 1))) s) ;;
  modify (set_status (-1)%float) ;;
  modify (set_seconds 0%float) ;;
  s <- this ;;
  when (isStatus s) (updateStatus 0).

(** The object [reset] leaves before it looks at the status flags. *)
Definition cleared (s : PrimeSieve) : PrimeSieve :=
  set_seconds 0%float
    (set_status (-1)%float
       (set_interval (double_of_Z (uint64 (stop_ s - start_ s + 1)))
          (set_counts (repeat 0 7) (set_sumSegments 0 s)))).

(** *** The primes and tuplets below 7 *)

Record SmallPrime : Type := mkSmallPrime {
  sp_min : Z;
  sp_max : Z;
  sp_index : Z;
  sp_str : string }.

Definition smallPrimes_ : list SmallPrime :=
  [ mkSmallPrime 2 2 0 "2";
    mkSmallPrime 3 3 0 "3";
    mkSmallPrime 5 5 0 "5";
    mkSmallPrime 3 5 1 "(3, 5)";
    mkSmallPrime 5 7 1 "(5, 7)";
    mkSmallPrime 5 11 2 "(5, 7, 11)";
    mkSmallPrime 5 13 3 "(5, 7, 11, 13)";
    mkSmallPrime 5 17 4 "(5, 7, 11, 13, 17)" ].

(** [counts_[index] += n] in 64-bit arithmetic. *)
Fixpoint counts_add (index : nat) (n : Z) (counts : list Z) : list Z :=
  match counts, index with
  | [], _ => []
  | c :: rest, O => uint64 (c + n) :: rest
  | c :: rest, S i => c :: counts_add i n rest
  end.

(** [doSmallPrime]; the lock it takes orders the callbacks of parallel
    workers and has no effect on a single object. *)
Definition doSmallPrime (sp : SmallPrime) : M unit :=
  s <- this ;;
  when ((start_ s <=? sp_min sp) && (sp_max sp <=? stop_ s))
    (when (sp_index sp =? 0)
       (when (isFlag s CALLBACK32_PRIMES)
          (emit (EvCallback32 (callback32_ s) (sp_min sp))) ;;
        when (isFlag s CALLBACK64_PRIMES)
          (emit (EvCallback64 (callback64_ s) (sp_min sp))) ;;
        when (isFlag s CALLBACK32_OOP_PRIMES)
          (emit (EvCallback32_OOP (callback32_OOP_ s) (sp_min sp) (obj_ s))) ;;
        when (isFlag s CALLBACK64_OOP_PRIMES)
          (emit (EvCallback64_OOP (callback64_OOP_ s) (sp_min sp) (obj_ s)))) ;;
     when (isCount s (sp_index sp))
       (modify (fun s' => set_counts (counts_add (Z.to_nat (sp_index sp)) 1 (counts_ s')) s')) ;;
     when (isPrint s (sp_index sp))
       (emit (EvPrint (sp_str sp)))).

Fixpoint doSmallPrimes (sps : list SmallPrime) : M unit :=
  match sps with
  | [] => ret tt
  | sp :: rest => doSmallPrime sp ;; doSmallPrimes rest
  end.

(** *** The tiny sieve that seeds the generator

    [isPrime] is a vector of 32-bit words, all initialised to
    [0xAAAAAAAA]; bit [i & 31] of word [i >> 5] stands for [i]. *)

Definition isPrime_bit (isPrime : list Z) (i : Z) : bool :=
  negb (Z.land (nth (Z.to_nat (Z.shiftr i 5)) isPrime 0)
               (uint32 (Z.shiftl 1 (Z.land i 31))) =? 0).

Fixpoint word_update (k : nat) (f : Z -> Z) (v : list Z) : list Z :=
  match v, k with
  | [], _ => []
  | w :: rest, O => f w :: rest
  | w :: rest, S k' => w :: word_update k' f rest
  end.

(** [isPrime[j >> 5] &= ~(1 << (j & 31))]. *)
Definition isPrime_clear (isPrime : list Z) (j : Z) : list Z :=
  word_update (Z.to_nat (Z.shiftr j 5))
    (fun w => Z.land w (uint32 (Z.lnot (Z.shiftl 1 (Z.land j 31))))) isPrime.

(** [for (uint_t j = i * i; j <= N; j += i * 2) ...]. *)
Fixpoint tiny_cross_off (fuel : nat) (N i j : Z) (isPrime : list Z) : list Z :=
  match fuel with
  | O => isPrime
  | S fuel' =>
      if j <=? N
      then tiny_cross_off fuel' N i (uint32 (j + uint32 (i * 2))) (isPrime_clear isPrime j)
      else isPrime
  end.

(** [for (uint_t i = 3; i * i <= N; i += 2) ...]. *)
Fixpoint tiny_sieve (fuel : nat) (N i : Z) (isPrime : list Z) : list Z :=
  match fuel with
  | O => isPrime
  | S fuel' =>
      if uint32 (i * i) <=? N
      then
        tiny_sieve fuel' N (uint32 (i + 2))
          (if isPrime_bit isPrime i
           then tiny_cross_off (S (Z.to_nat N)) N i (uint32 (i * i)) isPrime
           else isPrime)
      else isPrime
  end.

(** [for (uint_t i = preSieve + 1; i <= N; i++) if (...) generator.sieve(i)]:
    the numbers handed to the generator, in order. *)
Fixpoint tiny_feed (fuel : nat) (N i : Z) (isPrime : list Z) : list Z :=
  match fuel with
  | O => []
  | S fuel' =>
      if i <=? N
      then (if isPrime_bit isPrime i then [i] else [])
             ++ tiny_feed fuel' N (uint32 (i + 1)) isPrime
      else []
  end.

(** Each of the three loops runs at most [N] times as long as its
    counter does not wrap, so [N + 1] steps are enough. *)
Definition tinySieve (N preSieve : Z) : list Z :=
  let fuel := S (Z.to_nat N) in
  let isPrime := repeat 0xAAAAAAAA (Z.to_nat (N / 32 + 1)) in
  tiny_feed fuel N (uint32 (preSieve + 1)) (tiny_sieve fuel N 3 isPrime).

(** The state of the bits when the outer loop of the tiny sieve stands
    at [i]: among the numbers up to [N], exactly the odd ones that no
    odd [d] from 3 to [i - 1] has crossed off (as a multiple from [d * d]
    on) have their bit set. *)
Definition sieved (N i : Z) (isPrime : list Z) : Prop :=
  forall m, 0 <= m <= N ->
    (isPrime_bit isPrime m = true <->
     Z.odd m = true /\
     forall d, 3 <= d < i -> Z.odd d = true -> (d | m) -> d * d <= m -> False).

(** *** The sieving engine seen from the facade

    [PrimeNumberFinder] and [PrimeNumberGenerator] are not under src/.
    The facade only sees what they do to it: they add to [counts_], call
    the callbacks, print, and post progress through [updateStatus]. *)

(** The configuration the engine reads from the facade. *)
Record Config : Type := mkConfig {
  cfg_start : Z;
  cfg_stop : Z;
  cfg_preSieve : Z;
  cfg_sieveSize : Z;
  cfg_flags : Z;
  cfg_callback32 : ptr;
  cfg_callback64 : ptr;
  cfg_callback32_OOP : ptr;
  cfg_callback64_OOP : ptr;
  cfg_obj : ptr }.

Definition config_of (s : PrimeSieve) : Config :=
  mkConfig (start_ s) (stop_ s) (preSieve_ s) (sieveSize_ s) (flags_ s)
    (callback32_ s) (callback64_ s) (callback32_OOP_ s) (callback64_OOP_ s) (obj_ s).

Inductive Action : Type :=
  | AddCount (index : nat) (n : Z)
  | Output (e : Event)
  | PostStatus (segment : Z).

(** [finder.needGenerator()], [generator.getSquareRoot()],
    [generator.getPreSieve()], and what the engine does to the facade
    between the construction of the finder and the end of
    [finder.finish()], given the numbers the tiny sieve fed to the
    generator ([None] when no generator is needed). *)
Record Engine : Type := mkEngine {
  needGenerator : Config -> bool;
  getSquareRoot : Config -> Z;
  generatorPreSieve : Config -> Z;
  engine_actions : Config -> option (list Z) -> list Action }.

Definition perform (a : Action) : M unit :=
  match a with
  | AddCount index n => modify (fun s => set_counts (counts_add index n (counts_ s)) s)
  | Output e => emit e
  | PostStatus segment => updateStatus segment
  end.

Fixpoint performAll (acts : list Action) : M unit :=
  match acts with
  | [] => ret tt
  | a :: rest => perform a ;; performAll rest
  end.

Section Sieve.

Variable engine : Engine.
(** [(std::clock() - t1) / CLOCKS_PER_SEC], the processor time the run took. *)
Variable elapsed : float.

(** The numbers the facade feeds to the generator. *)
Definition fed_primes (cfg : Config) : option (list Z) :=
  if needGenerator engine cfg
  then Some (tinySieve (getSquareRoot engine cfg) (generatorPreSieve engine cfg))
  else None.

Definition runEngine : M unit :=
  s <- this ;;
  performAll (engine_actions engine (config_of s) (fed_primes (config_of s))).

(** [sieve()]. *)
Definition sieve : M unit :=
  s <- this ;;
  if stop_ s <? start_ s
  then throw "STOP must be >= START"
  else
    reset ;;
    s1 <- this ;;
    when (start_ s1 <=? 5) (doSmallPrimes smallPrimes_) ;;
    s2 <- this ;;
    when (stop_ s2 >=? 7) runEngine ;;
    modify (set_seconds elapsed) ;;
    s3 <- this ;;
    when (isStatus s3) (updateStatus 10).

(** [sieve(start, stop)] and [sieve(start, stop, flags)]. *)
Definition sieve2 (start stop : Z) : M unit :=
  setStart start ;; setStop stop ;; sieve.

Definition sieve3 (start stop flags : Z) : M unit :=
  setStart start ;; setStop stop ;; setFlags flags ;; sieve.

(** The four [generatePrimes]. *)
Definition generatePrimes32 (start stop : Z) (callback : ptr) : M unit :=
  if callback =? NULL
  then throw "callback must not be NULL"
  else
    modify (set_callback32 callback) ;;
    modify (set_flags CALLBACK32_PRIMES) ;;
    setPreSieve 17 ;;
    sieve2 start stop.

Definition generatePrimes64 (start stop : Z) (callback : ptr) : M unit :=
  if callback =? NULL
  then throw "callback must not be NULL"
  else
    modify (set_callback64 callback) ;;
    modify (set_flags CALLBACK64_PRIMES) ;;
    setPreSieve 17 ;;
    sieve2 start stop.

Definition generatePrimes32_OOP (start stop : Z) (callback obj : ptr) : M unit :=
  if (callback =? NULL) || (obj =? NULL)
  then throw "callback & obj must not be NULL"
  else
    modify (set_callback32_OOP callback) ;;
    modify (set_obj obj) ;;
    modify (set_flags CALLBACK32_OOP_PRIMES) ;;
    setPreSieve 17 ;;
    sieve2 start stop.

Definition generatePrimes64_OOP (start stop : Z) (callback obj : ptr) : M unit :=
  if (callback =? NULL) || (obj =? NULL)
  then throw "callback & obj must not be NULL"
  else
    modify (set_callback64_OOP callback) ;;
    modify (set_obj obj) ;;
    modify (set_flags CALLBACK64_OOP_PRIMES) ;;
    setPreSieve 17 ;;
    sieve2 start stop.

(** What every [generatePrimes] does after it has stored its callback:
    assign the flag, set the pre-sieve limit, store the interval, sieve. *)
Definition generate_tail (flag start stop : Z) : M unit :=
  modify (set_flags flag) ;; setPreSieve 17 ;; sieve2 start stop.

(** What a call of [generatePrimes] that has stored its callback
    leaves, for the callback flag [flag] and the configuration [cfg] it
    is to leave. *)
Definition overwritten (start stop flag : Z) (cfg : Config) (w' : World) : Prop :=
  flags_ (fst w') = flag /\
  getPreSieve (fst w') = 17 /\
  (forall index, 0 <= index < 7 ->
     isCount (fst w') index = false /\ isPrint (fst w') index = false) /\
  config_of (fst (snd (sieve w'))) = config_of (fst w') /\
  config_of (fst w') = cfg /\
  (start < UINT64_MAX - UINT32_MAX * 10 -> stop < UINT64_MAX - UINT32_MAX * 10 ->
   getStart (fst w') = start /\ getStop (fst w') = stop).

(** [getPrimeCount(start, stop)]. *)
Definition countPrimes (start stop : Z) : M Z :=
  sieve3 start stop COUNT_PRIMES ;;
  s <- this ;;
  ret (getPrimeCount s).

End Sieve.

(** *** What a run leaves in the counters

    The counters after [sieve()] as a function of the configuration
    alone: the table of small primes first, then what the engine adds. *)

Definition cfg_isCount (cfg : Config) (index : Z) : bool :=
  Z.land (cfg_flags cfg) (Z.shiftl COUNT_PRIMES index) =? Z.shiftl COUNT_PRIMES index.

Definition small_count (cfg : Config) (sp : SmallPrime) (counts : list Z) : list Z :=
  if (cfg_start cfg <=? sp_min sp) && (sp_max sp <=? cfg_stop cfg)
     && cfg_isCount cfg (sp_index sp)
  then counts_add (Z.to_nat (sp_index sp)) 1 counts
  else counts.

Definition small_counts (cfg : Config) (sps : list SmallPrime) (counts : list Z) : list Z :=
  fold_left (fun c sp => small_count cfg sp c) sps counts.

Definition action_count (a : Action) (counts : list Z) : list Z :=
  match a with
  | AddCount index n => counts_add index n counts
  | _ => counts
  end.

Definition action_counts (acts : list Action) (counts : list Z) : list Z :=
  fold_left (fun c a => action_count a c) acts counts.

Definition counts_after_sieve (engine : Engine) (cfg : Config) : list Z :=
  let c1 :=
    if cfg_start cfg <=? 5
    then small_counts cfg smallPrimes_ (repeat 0 7)
    else repeat 0 7 in
  if cfg_stop cfg >=? 7
  then action_counts (engine_actions engine cfg (fed_primes engine cfg)) c1
  else c1.

(** How many of the entries of a table are single primes that lie in the
    interval and are counted. *)
Fixpoint small_total (cfg : Config) (sps : list SmallPrime) : Z :=
  match sps with
  | [] => 0
  | sp :: rest =>
      (if (cfg_start cfg <=? sp_min sp) && (sp_max sp <=? cfg_stop cfg)
          && cfg_isCount cfg (sp_index sp) && Nat.eqb (Z.to_nat (sp_index sp)) 0
       then 1 else 0) + small_total cfg rest
  end.

(** Everything the actions add to one counter. *)
Fixpoint total_added (index : nat) (acts : list Action) : Z :=
  match acts with
  | [] => 0
  | AddCount i n :: rest =>
      (if Nat.eqb i index then n else 0) + total_added index rest
  | _ :: rest => total_added index rest
  end.

(** Modelled from the spec: [PrimeNumberFinder], which counts, is not
    under src/.  The spec says that the finder "counts set bits for
    primes" (4.7), that in the final bitmap "set bits correspond exactly
    to primes" (section 8, wheel coverage), that bits outside
    [[start, stop]] are masked out (4.6, step 2), and that 2, 3 and 5 are
    left to the table of the facade (4.7); the wheel starts at 7.  So
    with [COUNT_PRIMES] set, a run over a valid interval that reaches 7
    adds to [counts_[0]] the number of primes [p] with
    [max(7, start) <= p <= stop]. *)
Definition finder_counts_primes (engine : Engine) : Prop :=
  forall cfg : Config,
    cfg_isCount cfg 0 = true ->
    0 <= cfg_start cfg -> cfg_start cfg <= cfg_stop cfg -> 7 <= cfg_stop cfg ->
    cfg_stop cfg < UINT64_MAX - UINT32_MAX * 10 ->
    total_added 0 (engine_actions engine cfg (fed_primes engine cfg))
    = Primes.primes_between (Z.max 7 (cfg_start cfg)) (cfg_stop cfg).

(** Modelled from the spec: an engine that does what the spec says of
    the prime counter, and nothing else; it needs no generator. *)
Definition prime_counting_engine : Engine :=
  mkEngine (fun _ => false) (fun _ => 0) (fun _ => 0)
    (fun cfg _ =>
       if cfg_isCount cfg 0
       then [AddCount 0 (Primes.primes_between (Z.max 7 (cfg_start cfg)) (cfg_stop cfg))]
       else []).

(** A command [c] started in [w] returns normally, leaves the
    configuration as it was, and leaves [counts'] in the counters. *)
Definition runs (c : M unit) (w : World) (counts' : list Z) : Prop :=
  exists s' tr',
    c w = (Ok tt, (s', tr')) /\
    config_of s' = config_of (fst w) /\
    counts_ s' = counts'.

(** [PrimeSieve()]: the defaults of [config.h] are those the comments of
    [setPreSieve] and [setSieveSize] give (19 and 32); the callback
    pointers, which the constructor leaves unset, are [NULL]. *)
Definition PrimeSieve_new : PrimeSieve :=
  let s0 :=
    mkPrimeSieve 0 0 0 0 COUNT_PRIMES None [] 0 0%float 0%float 0%float
      NULL NULL NULL NULL NULL in
  fst (snd ((setPreSieve 19 ;; setSieveSize 32 ;; reset) (s0, []))).

End Soe.

(** ** [iterator.cpp] *)

Module Iter.

Import Cxx.
Open Scope Z_scope.

(** The data members of [primesieve::iterator] that this file uses;
    [count_], the number of calls of [get_interval_size] since the last
    [skipto], is a 64-bit unsigned counter. *)
Record iterator : Type := mkIterator {
  i_ : Z;
  count_ : Z;
  start_ : Z;
  first_ : bool;
  adjust_skipto_ : bool;
  primes_ : list Z }.

Definition KILOBYTE : Z := Z.shiftl 1 10.
Definition MEGABYTE : Z := Z.shiftl 1 20.
Definition sizeof_uint64_t : Z := 8.

(** [std::lower_bound] on a sorted vector: the index of the first element
    that is not below [v]. *)
Fixpoint lower_bound (l : list Z) (v : Z) : Z :=
  match l with
  | [] => 0
  | p :: rest => if p <? v then 1 + lower_bound rest v else 0
  end.

Section Libm.

(** [std::log] of the C library. *)
Variable log : float -> float.
(** [max_stop()], declared in [primesieve.h]. *)
Variable max_stop : Z.

(** [skipto(start)]. *)
Definition skipto (start : Z) (it : iterator) : Result unit * iterator :=
  let it1 := mkIterator 0 0 start true false (primes_ it) in
  if start_ it1 >? max_stop
  then (Throw (String.append "start must be <= " (to_decimal max_stop)), it1)
  else
    match primes_ it1 with
    | [] => (Ok tt, it1)
    | front :: _ =>
        if (front <=? start_ it1) && (last (primes_ it1) 0 >=? start_ it1)
        then (Ok tt, mkIterator (lower_bound (primes_ it1) (start_ it1)) 0 start true true
                       (primes_ it1))
        else (Ok tt, it1)
    end.

(** [(MEGABYTE * 512) / sizeof(uint64_t)]. *)
Definition max_primes : Z := uint64 (MEGABYTE * 512) / sizeof_uint64_t.

(** [((count_ < 10) ? (KILOBYTE * 32) : (MEGABYTE * 4)) / sizeof(uint64_t)],
    read after [count_++]. *)
Definition base_primes (count : Z) : Z :=
  (if count <? 10 then uint64 (KILOBYTE * 32) else uint64 (MEGABYTE * 4))
  / sizeof_uint64_t.

(** [x = std::max((double) n, 10.0)]. *)
Definition clamped_x (n : Z) : float := std_max (double_of_Z n) 10%float.

(** [static_cast<uint64_t>(sqrtx / (std::log(sqrtx) - 1))]. *)
Definition sqrtx_primes (n : Z) : Z :=
  let sqrtx := PrimFloat.sqrt (clamped_x n) in
  uint64_of_double (sqrtx / (log sqrtx - 1))%float.

(** [primes = std::min(std::max(primes, sqrtx_primes), max_primes)]. *)
Definition primes_per_batch (count n : Z) : Z :=
  Z.min (Z.max (base_primes count) (sqrtx_primes n)) max_primes.

(** [get_interval_size(n)]: the interval size it returns and the
    iterator after the call. *)
Definition get_interval_size (n : Z) (it : iterator) : Z * iterator :=
  let it1 :=
    mkIterator (i_ it) (uint64 (count_ it + 1)) (start_ it) (first_ it)
      (adjust_skipto_ it) (primes_ it) in
  let primes := primes_per_batch (count_ it1) n in
  (uint64_of_double (double_of_Z primes * log (clamped_x n))%float, it1).

(** The iterator after one call of [get_interval_size] for each of [ns]. *)
Fixpoint regenerate (ns : list Z) (it : iterator) : iterator :=
  match ns with
  | [] => it
  | n :: rest => regenerate rest (snd (get_interval_size n it))
  end.

(** [primesieve::generate_primes(start, stop, &primes_)], declared in
    [primesieve.h]: what it stores in the vector. *)
Variable generate_primes_api : Z -> Z -> list Z.

(** [iterator::generate_primes(start, stop)]: an empty result is
    replaced by the one element 0. *)
Definition generate_primes (start stop : Z) (it : iterator) : iterator :=
  mkIterator (i_ it) (count_ it) (start_ it) (first_ it) (adjust_skipto_ it)
    (match generate_primes_api start stop with
     | [] => [0]
     | p :: rest => p :: rest
     end).

(** [generate_next_primes()]. *)
Definition generate_next_primes (it : iterator) : iterator :=
  let it1 :=
    if adjust_skipto_ it then
      mkIterator
        (if (i_ it >? 0) && (nth (Z.to_nat (i_ it - 1)) (primes_ it) 0 >=? start_ it)
         then i_ it - 1 else i_ it)
        (count_ it) (start_ it) (first_ it) false (primes_ it)
    else
      let start := if first_ it then start_ it else uint64 (last (primes_ it) 0 + 1) in
      let (interval_size, it2) := get_interval_size start it in
      let stop :=
        if start <? uint64 (max_stop - interval_size)
        then uint64 (start + interval_size)
        else max_stop in
      let it3 := generate_primes start stop it2 in
      mkIterator 0 (count_ it3) (start_ it3) (first_ it3) (adjust_skipto_ it3)
        (primes_ it3) in
  mkIterator (i_ it1) (count_ it1) (start_ it1) false (adjust_skipto_ it1) (primes_ it1).

(** [generate_previous_primes()]. *)
Definition generate_previous_primes (it : iterator) : iterator :=
  let it1 :=
    if adjust_skipto_ it then
      mkIterator
        (if (i_ it >? 0) && (nth (Z.to_nat (i_ it)) (primes_ it) 0 >? start_ it)
         then i_ it - 1 else i_ it)
        (count_ it) (start_ it) (first_ it) false (primes_ it)
    else
      let stop :=
        if first_ it then start_ it
        else if hd 0 (primes_ it) >? 1 then uint64 (hd 0 (primes_ it) - 1) else 0 in
      let (interval_size, it2) := get_interval_size stop it in
      let start := if stop >? interval_size then uint64 (stop - interval_size) else 0 in
      let it3 := generate_primes start stop it2 in
      mkIterator (Z.of_nat (List.length (primes_ it3))) (count_ it3) (start_ it3)
        (first_ it3) (adjust_skipto_ it3) (primes_ it3) in
  mkIterator (i_ it1) (count_ it1) (start_ it1) false (adjust_skipto_ it1) (primes_ it1).

End Libm.

(** A new iterator: [iterator(start)] is [skipto(start)] on the members
    as they are before the constructor runs. *)
Definition iterator_new (max_stop start : Z) : iterator :=
  snd (skipto max_stop start (mkIterator 0 0 0 false false [])).

End Iter.

(** ** [cmdoptions.cpp] *)

Module Cmd.

Import Cxx.
Open Scope Z_scope.

(** [struct Option]. *)
Record Option : Type := mkOption {
  argv : string;
  str : string;
  value : string }.

(** The members of [CmdOptions] that this file assigns. *)
Record CmdOptions : Type := mkCmdOptions {
  numbers : list Z;
  flags : Z;
  sieveSize : Z;
  threads : Z;
  quiet : bool;
  nthPrime : bool;
  status : bool;
  time : bool }.

Definition set_flags (v : Z) (o : CmdOptions) : CmdOptions :=
  mkCmdOptions (numbers o) v (sieveSize o) (threads o) (quiet o) (nthPrime o)
    (status o) (time o).
Definition set_quiet (v : bool) (o : CmdOptions) : CmdOptions :=
  mkCmdOptions (numbers o) (flags o) (sieveSize o) (threads o) v (nthPrime o)
    (status o) (time o).

Definition is_empty (s : string) : bool :=
  match s with
  | EmptyString => true
  | _ => false
  end.

(** The cases of the [switch] of [optionCount]: the flag a digit stands
    for; [None] is the [default] case. *)
Definition count_flag (digit : Z) : option Z :=
  match digit with
  | 1 => Some Soe.COUNT_PRIMES
  | 2 => Some Soe.COUNT_TWINS
  | 3 => Some Soe.COUNT_TRIPLETS
  | 4 => Some Soe.COUNT_QUADRUPLETS
  | 5 => Some Soe.COUNT_QUINTUPLETS
  | 6 => Some Soe.COUNT_SEXTUPLETS
  | _ => None
  end.

(** The loop of [optionCount]:
    [for (; n > 0; n /= 10) switch (n % 10) ...]; it returns the flags it
    has set so far, also when it throws. *)
Equations? optionCount_loop (what : string) (n flags : Z) : Result unit * Z
  by wf n (Zwf 0) :=
  optionCount_loop what n flags with inspect (n >? 0) := {
    | exist _ true _ =>
        match count_flag (n mod 10) with
        | Some flag => optionCount_loop what (n / 10) (Z.lor flags flag)
        | None => (Throw what, flags)
        end
    | exist _ false _ => (Ok tt, flags) }.
Proof.
  unfold Zwf; apply Z.gtb_lt in e; split; [lia | apply Z.div_lt; lia].
Qed.

(** The decimal digits of a positive [n], least significant first, as
    the loop of [optionCount] meets them. *)
Equations? decimal_digits (n : Z) : list Z by wf n (Zwf 0) :=
  decimal_digits n with inspect (n >? 0) := {
    | exist _ true _ => (n mod 10) :: decimal_digits (n / 10)
    | exist _ false _ => [] }.
Proof.
  unfold Zwf; apply Z.gtb_lt in e; split; [lia | apply Z.div_lt; lia].
Qed.

(** [enum OptionID]. *)
Inductive OptionID : Type :=
  | OPTION_COUNT
  | OPTION_HELP
  | OPTION_NTHPRIME
  | OPTION_NO_STATUS
  | OPTION_NUMBER
  | OPTION_DISTANCE
  | OPTION_PRINT
  | OPTION_QUIET
  | OPTION_SIZE
  | OPTION_THREADS
  | OPTION_TIME
  | OPTION_VERSION.

Open Scope string_scope.

(** [optionMap]. *)
Definition optionMap : list (string * OptionID) :=
  [ ("-c", OPTION_COUNT);
    ("--count", OPTION_COUNT);
    ("-h", OPTION_HELP);
    ("--help", OPTION_HELP);
    ("-n", OPTION_NTHPRIME);
    ("--nthprime", OPTION_NTHPRIME);
    ("--no-status", OPTION_NO_STATUS);
    ("--number", OPTION_NUMBER);
    ("-d", OPTION_DISTANCE);
    ("--dist", OPTION_DISTANCE);
    ("-p", OPTION_PRINT);
    ("--print", OPTION_PRINT);
    ("-q", OPTION_QUIET);
    ("--quiet", OPTION_QUIET);
    ("-s", OPTION_SIZE);
    ("--size", OPTION_SIZE);
    ("-t", OPTION_THREADS);
    ("--threads", OPTION_THREADS);
    ("--time", OPTION_TIME);
    ("-v", OPTION_VERSION);
    ("--version", OPTION_VERSION) ].

(** [optionMap.count(key)], as a truth value. *)
Definition optionMap_count (key : string) : bool :=
  existsb (fun entry => String.eqb (fst entry) key) optionMap.

(** Whether [c] is one of the characters of [chars]. *)
Definition is_one_of (chars : string) (c : Ascii.ascii) : bool :=
  existsb (Ascii.eqb c) (list_ascii_of_string chars).

(** [s.find_first_of(chars)]; [None] is [string::npos]. *)
Fixpoint find_first_of (chars s : string) : option nat :=
  match s with
  | EmptyString => None
  | String c rest =>
      if is_one_of chars c then Some 0%nat
      else option_map S (find_first_of chars rest)
  end.

(** [s.substr(0, len)]. *)
Fixpoint substr_to (len : nat) (s : string) : string :=
  match len, s with
  | S len', String c rest => String c (substr_to len' rest)
  | _, _ => EmptyString
  end.

(** [s.substr(pos)] for [pos] up to the size of [s]. *)
Fixpoint substr_from (pos : nat) (s : string) : string :=
  match pos, s with
  | S pos', String _ rest => substr_from pos' rest
  | _, _ => s
  end.

(** The characters at which [makeOption] splits. *)
Definition delimiters : string := "=0123456789".

(** [makeOption(argv)]. *)
Definition makeOption (argv : string) : Result Option :=
  let opt :=
    match find_first_of delimiters argv with
    | None => mkOption argv argv EmptyString
    | Some delimiter =>
        mkOption argv (substr_to delimiter argv)
          (substr_from
             (delimiter +
              (match String.get delimiter argv with
               | Some c => if Ascii.eqb c "="%char then 1 else 0
               | None => 0
               end))%nat
             argv)
    end in
  let opt :=
    if is_empty (str opt) && negb (is_empty (value opt))
    then mkOption (Cmd.argv opt) "--number" (value opt)
    else opt in
  if negb (optionMap_count (str opt))
  then Throw ("unknown option " ++ argv)
  else Ok opt.

Section Calculator.

(** [calculator::eval<int>], declared in [calculator.hpp]: the value of
    an arithmetic expression, or an exception. *)
Variable eval_int : string -> Result Z.

(** [Option::getValue<int>()]. *)
Definition getValue (opt : Option) : Result Z :=
  if is_empty (value opt)
  then Throw ("missing value for option " ++ argv opt)
  else eval_int (value opt).

(** [optionCount(opt, opts)]; both arguments are references. *)
Definition optionCount (opt : Option) (opts : CmdOptions)
  : Result unit * (Option * CmdOptions) :=
  let opt1 := if is_empty (value opt) then mkOption (argv opt) (str opt) "1" else opt in
  match getValue opt1 with
  | Throw what => (Throw what, (opt1, opts))
  | Ok n =>
      let (r, flags') := optionCount_loop ("invalid option " ++ argv opt1) n (flags opts) in
      (r, (opt1, set_flags flags' opts))
  end.

(** [optionPrint(opt, opts)]. *)
Definition optionPrint (opt : Option) (opts : CmdOptions)
  : Result unit * (Option * CmdOptions) :=
  let opts1 := set_quiet true opts in
  let opt1 := if is_empty (value opt) then mkOption (argv opt) (str opt) "1" else opt in
  match getValue opt1 with
  | Throw what => (Throw what, (opt1, opts1))
  | Ok n =>
      match n with
      | 1 => (Ok tt, (opt1, set_flags (Z.lor (flags opts1) Soe.PRINT_PRIMES) opts1))
      | 2 => (Ok tt, (opt1, set_flags (Z.lor (flags opts1) Soe.PRINT_TWINS) opts1))
      | 3 => (Ok tt, (opt1, set_flags (Z.lor (flags opts1) Soe.PRINT_TRIPLETS) opts1))
      | 4 => (Ok tt, (opt1, set_flags (Z.lor (flags opts1) Soe.PRINT_QUADRUPLETS) opts1))
      | 5 => (Ok tt, (opt1, set_flags (Z.lor (flags opts1) Soe.PRINT_QUINTUPLETS) opts1))
      | 6 => (Ok tt, (opt1, set_flags (Z.lor (flags opts1) Soe.PRINT_SEXTUPLETS) opts1))
      | _ => (Throw ("invalid option " ++ argv opt1), (opt1, opts1))
      end
  end.

End Calculator.

End Cmd.


(* ===================================================================== *)
(** * Part II: properties                                                 *)
(* ===================================================================== *)

(** ** [pmath.hpp]: [ilog2] and [isqrt] *)

Section PmathProofs.

Import Pmath.
Open Scope N_scope.

Variable bits : N.

Lemma wrap_small x : x < 2 ^ bits -> wrap bits x = x.
Proof. intros; unfold wrap; now apply N.mod_small. Qed.

Lemma ilog2_loop_eq i x l :
  ilog2_loop bits i x l =
    if i =? 0 then l
    else if wrap bits (N.shiftl 1 i) <=? x
         then ilog2_loop bits (i / 2) (N.shiftr x i) (wrap bits (l + i))
         else ilog2_loop bits (i / 2) x l.
Proof.
  rewrite ilog2_loop_equation_1.
  destruct (N.eq_dec i 0) as [->|Hi]; simpl.
  - reflexivity.
  - apply N.eqb_neq in Hi. rewrite Hi. reflexivity.
Qed.

Lemma isqrt_loop_eq x g0 g1 :
  isqrt_loop bits x g0 g1 =
    if g1 <? g0 then isqrt_loop bits x g1 (N.shiftr (wrap bits (g1 + x / g1)) 1)
    else g0.
Proof.
  rewrite isqrt_loop_equation_1.
  destruct (inspect (g1 <? g0)) as [b E].
  destruct b; simpl; rewrite E; reflexivity.
Qed.

(** One Newton step never goes below the root. *)
Lemma newton_step_ge x g : 1 <= g -> N.sqrt x <= (g + x / g) / 2.
Proof.
  intros Hg.
  pose proof (N.sqrt_spec' x) as [Hlo _].
  pose proof (N.div_mod x g ltac:(lia)) as Hdm.
  pose proof (N.mod_lt x g ltac:(lia)) as Hm.
  apply N.div_le_lower_bound; [lia|].
  set (r := N.sqrt x) in *. set (q := x / g) in *.
  destruct (N.le_gt_cases (2 * r) (g + q)) as [|Hc]; [assumption|exfalso].
  assert (4 * (g * (q + 1)) <= (g + q + 1) * (g + q + 1)).
  { pose proof (Z.square_nonneg (Z.of_N g - Z.of_N (q + 1))). nia. }
  assert ((g + q + 1) * (g + q + 1) <= 4 * (r * r)) by nia.
  nia.
Qed.

(** When the step does not decrease, the guess is not above the root. *)
Lemma newton_exit_le x g : 1 <= g -> g <= (g + x / g) / 2 -> g <= N.sqrt x.
Proof.
  intros Hg H.
  apply N.sqrt_le_square.
  pose proof (N.div_mod x g ltac:(lia)) as Hdm.
  pose proof (N.div_mod (g + x / g) 2 ltac:(lia)) as Hd2.
  pose proof (N.mod_lt (g + x / g) 2 ltac:(lia)) as Hm2.
  generalize dependent (x / g); intros q H Hdm Hd2 Hm2.
  generalize dependent ((g + q) / 2); intros d H Hd2.
  generalize dependent ((g + q) mod 2); intros m Hm2 Hd2.
  generalize dependent (x mod g); intros m' Hdm.
  assert (g <= q) by lia.
  nia.
Qed.

Lemma quot_le_above_sqrt x g : 1 <= g -> N.sqrt x <= g -> x / g <= g + 2.
Proof.
  intros Hg Hr.
  pose proof (N.sqrt_spec' x) as [_ Hhi].
  apply N.Div0.div_le_upper_bound. nia.
Qed.

Lemma shiftr1_half a : N.shiftr a 1 = a / 2.
Proof. rewrite N.shiftr_div_pow2. reflexivity. Qed.

Lemma shiftl1_pow2 i : N.shiftl 1 i = 2 ^ i.
Proof. rewrite N.shiftl_mul_pow2. lia. Qed.

Lemma pow2_double h : 2 ^ (2 * h) = 2 ^ h * 2 ^ h.
Proof. replace (2 * h) with (h + h) by lia. apply N.pow_add_r. Qed.

(** The sum of a Newton step fits the type. *)
Lemma newton_no_wrap x g h :
  bits = 2 * h -> 2 <= h -> 1 <= g -> N.sqrt x <= g -> g <= 2 ^ h ->
  g + x / g < 2 ^ bits.
Proof.
  intros -> Hh Hg Hr Hle.
  pose proof (quot_le_above_sqrt x g Hg Hr) as Hq.
  rewrite pow2_double.
  assert (4 <= 2 ^ h).
  { change 4 with (2 ^ 2). apply N.pow_le_mono_r; lia. }
  generalize dependent (x / g); intros q Hq.
  nia.
Qed.

Lemma isqrt_loop_correct x h :
  bits = 2 * h -> 2 <= h -> 1 <= x ->
  forall g0, 1 <= g0 -> N.sqrt x <= g0 -> g0 <= 2 ^ h ->
  isqrt_loop bits x g0 ((g0 + x / g0) / 2) = N.sqrt x.
Proof.
  intros Hb Hh Hx g0.
  induction g0 as [g0 IH] using (well_founded_induction N.lt_wf_0).
  intros Hg Hr Hle.
  assert (1 <= N.sqrt x) as Hr1.
  { change 1 with (N.sqrt 1). now apply N.sqrt_le_mono. }
  rewrite isqrt_loop_eq.
  destruct ((g0 + x / g0) / 2 <? g0) eqn:E.
  - apply N.ltb_lt in E.
    pose proof (newton_step_ge x g0 Hg) as Hge.
    set (g1 := (g0 + x / g0) / 2) in *.
    rewrite wrap_small, shiftr1_half.
    + apply IH; lia.
    + apply (newton_no_wrap x g1 h); lia.
  - apply N.ltb_ge in E.
    apply N.le_antisymm; [|assumption].
    now apply newton_exit_le.
Qed.

Lemma log2_shift x i m :
  2 ^ i <= x -> N.log2 (x / 2 ^ i) = m -> N.log2 x = i + m.
Proof.
  intros Hx <-.
  assert (0 < 2 ^ i) as Hp by (apply N.neq_0_lt_0, N.pow_nonzero; lia).
  assert (1 <= x / 2 ^ i) as Hq by (apply N.div_le_lower_bound; lia).
  destruct (N.log2_spec (x / 2 ^ i) ltac:(lia)) as [Hlo Hhi].
  pose proof (N.div_mod x (2 ^ i) ltac:(lia)) as Hdm.
  pose proof (N.mod_lt x (2 ^ i) ltac:(lia)) as Hm.
  apply N.log2_unique; [lia|].
  replace (N.succ (i + N.log2 (x / 2 ^ i))) with (i + N.succ (N.log2 (x / 2 ^ i))) by lia.
  rewrite !N.pow_add_r.
  generalize dependent (N.log2 (x / 2 ^ i)); intros l Hlo Hhi.
  generalize dependent (x mod 2 ^ i); intros r Hdm Hr.
  generalize dependent (x / 2 ^ i); intros q Hq Hlo Hhi Hdm.
  generalize dependent (2 ^ N.succ l); intros b Hhi.
  generalize dependent (2 ^ l); intros a Hlo.
  generalize dependent (2 ^ i); intros c Hx Hp Hdm Hr.
  nia.
Qed.

(** The loop of [ilog2], entered with a power of two [i] and [x] below
    [2^(2i)], adds the binary logarithm of [x]. *)
Lemma ilog2_loop_correct (j : nat) :
  forall x l,
    1 <= x -> x < 2 ^ (2 * 2 ^ N.of_nat j) -> 2 * 2 ^ N.of_nat j <= bits ->
    l + 2 * 2 ^ N.of_nat j <= 2 ^ bits ->
    ilog2_loop bits (2 ^ N.of_nat j) x l = l + N.log2 x.
Proof.
  induction j as [|j IH]; intros x l Hx Hhi Hb Hl.
  - change (2 ^ N.of_nat 0) with 1 in *. change (2 * 1) with 2 in *.
    assert (2 ^ 2 <= 2 ^ bits) as Hp by (apply N.pow_le_mono_r; lia).
    change (2 ^ 2) with 4 in *.
    rewrite ilog2_loop_eq. simpl (1 =? 0).
    rewrite shiftl1_pow2, wrap_small by (change (2 ^ 1) with 2; lia).
    change (2 ^ 1) with 2. change (1 / 2) with 0.
    destruct (2 <=? x) eqn:E.
    + apply N.leb_le in E. rewrite ilog2_loop_eq. simpl (0 =? 0).
      rewrite wrap_small by lia. f_equal. symmetry.
      apply N.log2_unique; [lia|]. change (2 ^ N.succ 1) with 4. change (2 ^ 1) with 2. lia.
    + apply N.leb_gt in E. rewrite ilog2_loop_eq. simpl (0 =? 0).
      replace x with 1 by lia. simpl. lia.
  - replace (2 ^ N.of_nat (S j)) with (2 * 2 ^ N.of_nat j) in *
      by (rewrite Nnat.Nat2N.inj_succ, N.pow_succ_r'; reflexivity).
    set (i := 2 ^ N.of_nat j) in *.
    assert (1 <= i) as Hi.
    { subst i. apply N.lt_pred_le. simpl. apply N.neq_0_lt_0, N.pow_nonzero; lia. }
    assert (2 ^ (2 * i) < 2 ^ bits) as Hp by (apply N.pow_lt_mono_r; lia).
    rewrite ilog2_loop_eq.
    replace (2 * i =? 0) with false by (symmetry; apply N.eqb_neq; lia).
    rewrite shiftl1_pow2, (wrap_small (2 ^ (2 * i))) by assumption.
    replace (2 * i / 2) with i by (rewrite N.mul_comm, N.div_mul; lia).
    destruct (2 ^ (2 * i) <=? x) eqn:E.
    + apply N.leb_le in E.
      rewrite N.shiftr_div_pow2, wrap_small by lia.
      assert (0 < 2 ^ (2 * i)) as Hpos by (apply N.neq_0_lt_0, N.pow_nonzero; lia).
      rewrite IH.
      * rewrite (log2_shift x (2 * i) _ E eq_refl). lia.
      * apply N.div_le_lower_bound; lia.
      * apply N.Div0.div_lt_upper_bound.
        rewrite <- N.pow_add_r. replace (2 * i + 2 * i) with (2 * (2 * i)) by lia. assumption.
      * lia.
      * lia.
    + apply N.leb_gt in E. apply IH; lia.
Qed.

Lemma ilog2_correct (k : nat) x :
  bits = 2 ^ N.of_nat (S k) -> 1 <= x -> x < 2 ^ bits -> ilog2 bits x = N.log2 x.
Proof.
  intros Hb Hx Hlt. unfold ilog2.
  assert (bits = 2 * 2 ^ N.of_nat k) as Hb2
    by (rewrite Hb, Nnat.Nat2N.inj_succ, N.pow_succ_r'; reflexivity).
  replace (bits / 2) with (2 ^ N.of_nat k)
    by (rewrite Hb2, N.mul_comm, N.div_mul; lia).
  rewrite ilog2_loop_correct; try lia.
  - rewrite <- Hb2. assumption.
  - rewrite <- Hb2. simpl. apply N.lt_le_incl, N.pow_gt_lin_r. lia.
Qed.

(** [isqrt] computes [N.sqrt] at every width [2^k] from 4 bits on. *)
Lemma isqrt_is_sqrt (k : nat) x :
  bits = 2 ^ N.of_nat (S (S k)) -> x < 2 ^ bits -> isqrt bits x = N.sqrt x.
Proof.
  intros Hb Hx. unfold isqrt.
  destruct (x <=? 1) eqn:E.
  - apply N.leb_le in E.
    assert (x = 0 \/ x = 1) as [-> | ->] by lia; reflexivity.
  - apply N.leb_gt in E.
    set (h := 2 ^ N.of_nat (S k)).
    assert (bits = 2 * h) as Hb2
      by (subst h; rewrite Hb, (Nnat.Nat2N.inj_succ (S k)), N.pow_succ_r'; reflexivity).
    assert (2 <= h) as Hh.
    { subst h. rewrite Nnat.Nat2N.inj_succ, N.pow_succ_r'.
      assert (0 < 2 ^ N.of_nat k) by (apply N.neq_0_lt_0, N.pow_nonzero; lia). lia. }
    assert (bits < 2 ^ bits) as Hbb by (apply N.pow_gt_lin_r; lia).
    replace (bits / 2) with h by (rewrite Hb2, N.mul_comm, N.div_mul; lia).
    replace ((bits - 1) / 2) with (h - 1).
    2:{ apply (N.div_unique _ 2 _ 1); lia. }
    replace (h - (h - 1)) with 1 by lia.
    rewrite (wrap_small 1), (wrap_small (x - 1)) by lia.
    rewrite (ilog2_correct (S k)) by (assumption || lia).
    assert (N.log2 (x - 1) < bits) as Hl by (apply N.log2_lt_pow2; lia).
    destruct (N.log2_spec (x - 1) ltac:(lia)) as [_ Hup].
    pose proof (N.div_mod (N.log2 (x - 1)) 2 ltac:(lia)) as Hdm.
    pose proof (N.mod_lt (N.log2 (x - 1)) 2 ltac:(lia)) as Hm.
    generalize dependent (N.log2 (x - 1)); intros l Hl Hup Hdm Hm.
    generalize dependent (l mod 2); intros m Hdm Hm.
    generalize dependent (l / 2); intros d Hdm.
    rewrite (wrap_small (1 + d)) by lia.
    set (s := 1 + d).
    assert (s <= h) as Hs by lia.
    assert (2 ^ s <= 2 ^ h) as Hgs by (apply N.pow_le_mono_r; lia).
    assert (2 ^ h < 2 ^ bits) as Hhb by (apply N.pow_lt_mono_r; lia).
    rewrite shiftl1_pow2, (wrap_small (2 ^ s)) by lia.
    rewrite (N.shiftr_div_pow2 x s).
    assert (1 <= 2 ^ s) as Hg1.
    { apply N.lt_pred_le. simpl. apply N.neq_0_lt_0, N.pow_nonzero; lia. }
    assert (N.sqrt x <= 2 ^ s) as Hr.
    { rewrite <- (N.sqrt_square (2 ^ s)). apply N.sqrt_le_mono.
      rewrite <- N.pow_add_r.
      assert (2 ^ N.succ l <= 2 ^ (s + s)) by (apply N.pow_le_mono_r; lia).
      lia. }
    rewrite wrap_small, shiftr1_half by (apply (newton_no_wrap x _ h); assumption).
    apply (isqrt_loop_correct x h); (assumption || lia).
Qed.

End PmathProofs.

(** C9.  At each width of the unsigned integer types (8, 16, 32 and 64
    bits) and for every value [x] of the type, [isqrt x] is the integer
    square root of [x]: it is [N.sqrt x], its square is at most [x], the
    square of its successor is above [x], and it is the only number with
    these two properties.  [isqrt] is a total function (its loops are
    defined by well-founded recursion), so the call returns. *)
Theorem isqrt_floor_sqrt (bits x : N) :
  In bits [8; 16; 32; 64]%N ->
  (x < 2 ^ bits)%N ->
  let r := Pmath.isqrt bits x in
  (r = N.sqrt x /\ r * r <= x < (r + 1) * (r + 1) /\
   forall r', r' * r' <= x < (r' + 1) * (r' + 1) -> r' = r)%N.
Proof.
  intros Hb Hx r.
  assert (r = N.sqrt x) as Hr.
  { subst r. simpl in Hb.
    destruct Hb as [<-|[<-|[<-|[<-|[]]]]].
    - now apply (isqrt_is_sqrt 8 1).
    - now apply (isqrt_is_sqrt 16 2).
    - now apply (isqrt_is_sqrt 32 3).
    - now apply (isqrt_is_sqrt 64 4). }
  split; [assumption|].
  pose proof (N.sqrt_spec' x) as Hs.
  rewrite Hr. split.
  - replace (N.sqrt x + 1)%N with (N.succ (N.sqrt x)) by lia. assumption.
  - intros r' Hr'. symmetry. apply N.sqrt_unique.
    replace (N.succ r') with (r' + 1)%N by lia. assumption.
Qed.

(** The largest 64-bit value. *)
Lemma isqrt_floor_sqrt_witness :
  (Pmath.isqrt 64 (2 ^ 64 - 1) = N.sqrt (2 ^ 64 - 1) /\
   Pmath.isqrt 64 (2 ^ 64 - 1) * Pmath.isqrt 64 (2 ^ 64 - 1) <= 2 ^ 64 - 1
     < (Pmath.isqrt 64 (2 ^ 64 - 1) + 1) * (Pmath.isqrt 64 (2 ^ 64 - 1) + 1) /\
   forall r', r' * r' <= 2 ^ 64 - 1 < (r' + 1) * (r' + 1) ->
              r' = Pmath.isqrt 64 (2 ^ 64 - 1))%N.
Proof.
  apply (isqrt_floor_sqrt 64 (2 ^ 64 - 1)).
  - simpl. tauto.
  - reflexivity.
Defined.

(** The edge cases of [isqrt], evaluated. *)
Example isqrt_edge_cases :
  (Pmath.isqrt 64 0 = 0 /\ Pmath.isqrt 64 1 = 1 /\
   Pmath.isqrt 64 (2 ^ 64 - 1) = 2 ^ 32 - 1 /\
   Pmath.isqrt 32 (2 ^ 32 - 1) = 2 ^ 16 - 1 /\
   Pmath.isqrt 8 255 = 15)%N.
Proof. vm_compute. repeat split. Qed.

(** ** [PrimeSieve.cpp]: the setters *)

Section SetterProofs.

Import Cxx Soe.
Open Scope Z_scope.

(** The bound of [setStart] and [setStop], evaluated. *)
Lemma ceiling_value :
  uint64 (UINT64_MAX - uint64 (UINT32_MAX * 10)) = 2 ^ 64 - 1 - 10 * (2 ^ 32 - 1).
Proof. reflexivity. Qed.

(** C2, as stated, fails: [setStop] refuses [2^64 - 10 * (2^32 - 1) - 1],
    the value the claim says is accepted and stored, and the stored stop
    number stays [0]. *)
Lemma setStop_rejects_claimed_maximum :
  setStop (2 ^ 64 - 10 * (2 ^ 32 - 1) - 1) (PrimeSieve_new, [])
  = (Throw "STOP must be < (2^64-1) - (2^32-1) * 10", (PrimeSieve_new, []))
  /\ getStop PrimeSieve_new = 0.
Proof. split; reflexivity. Qed.

(** C2, amended.  [setStart v] and [setStop v] throw exactly when
    [v >= 2^64 - 1 - 10 * (2^32 - 1)], and then leave the object and the
    output as they were; below that bound they return normally and
    store [v]. *)
Theorem setStart_setStop_guard (v : Z) (s : PrimeSieve) (tr : list Event) :
  (2 ^ 64 - 1 - 10 * (2 ^ 32 - 1) <= v ->
     setStart v (s, tr) = (Throw "START must be < (2^64-1) - (2^32-1) * 10", (s, tr)) /\
     setStop v (s, tr) = (Throw "STOP must be < (2^64-1) - (2^32-1) * 10", (s, tr)))
  /\
  (v < 2 ^ 64 - 1 - 10 * (2 ^ 32 - 1) ->
     setStart v (s, tr) = (Ok tt, (set_start v s, tr)) /\
     getStart (set_start v s) = v /\
     setStop v (s, tr) = (Ok tt, (set_stop v s, tr)) /\
     getStop (set_stop v s) = v).
Proof.
  unfold setStart, setStop. rewrite ceiling_value.
  split; intros H.
  - replace (v >=? 2 ^ 64 - 1 - 10 * (2 ^ 32 - 1)) with true
      by (symmetry; apply Z.geb_le; lia).
    split; reflexivity.
  - replace (v >=? 2 ^ 64 - 1 - 10 * (2 ^ 32 - 1)) with false.
    + repeat split.
    + symmetry. rewrite Z.geb_leb. apply Z.leb_gt. lia.
Qed.

(** The two values next to the bound. *)
Example setStop_at_the_bound :
  fst (setStop (2 ^ 64 - 10 * (2 ^ 32 - 1) - 2) (PrimeSieve_new, [])) = Ok tt /\
  getStop (fst (snd (setStop (2 ^ 64 - 10 * (2 ^ 32 - 1) - 2) (PrimeSieve_new, []))))
  = 2 ^ 64 - 10 * (2 ^ 32 - 1) - 2 /\
  fst (setStop (2 ^ 64 - 10 * (2 ^ 32 - 1)) (PrimeSieve_new, []))
  = Throw "STOP must be < (2^64-1) - (2^32-1) * 10".
Proof. repeat split. Qed.

Lemma nextPowerOf2_pos x : 1 <= nextPowerOf2 x.
Proof.
  unfold nextPowerOf2.
  assert (0 < 2 ^ Z.log2_up x) by (apply Z.pow_pos_nonneg; [lia | apply Z.log2_up_nonneg]).
  lia.
Qed.

(** C4.  After [setSieveSize k] the stored size is [2^e] for some [e]
    from 0 to 12, hence a power of two between 1 and 4096; and for
    [1 <= k <= 4096] it is at least [k] and at most every power of two
    that is at least [k]. *)
Theorem setSieveSize_power_of_two (k : Z) (s : PrimeSieve) (tr : list Event) :
  let s' := fst (snd (setSieveSize k (s, tr))) in
  fst (setSieveSize k (s, tr)) = Ok tt /\
  (exists e, 0 <= e <= 12 /\ getSieveSize s' = 2 ^ e) /\
  1 <= getSieveSize s' <= 4096 /\
  (1 <= k <= 4096 ->
     k <= getSieveSize s' /\
     forall e, 0 <= e -> k <= 2 ^ e -> getSieveSize s' <= 2 ^ e).
Proof.
  intros s'. subst s'. unfold setSieveSize, modify, getSieveSize. simpl.
  unfold Pmath.getInBetween.
  pose proof (nextPowerOf2_pos k) as Hpos.
  replace (nextPowerOf2 k <? 1) with false by (symmetry; apply Z.ltb_ge; lia).
  pose proof (Z.log2_up_nonneg k) as Hl.
  destruct (nextPowerOf2 k >? 4096) eqn:E.
  - apply Z.gtb_lt in E.
    split; [reflexivity|]. split; [exists 12; split; [lia | reflexivity]|].
    split; [lia|]. intros Hk. exfalso.
    assert (Z.log2_up k <= 12) as Hle.
    { apply Z.log2_up_le_pow2; [lia|]. change (2 ^ 12) with 4096. lia. }
    assert (2 ^ Z.log2_up k <= 2 ^ 12) by (apply Z.pow_le_mono_r; lia).
    unfold nextPowerOf2 in E. change (2 ^ 12) with 4096 in *. lia.
  - rewrite Z.gtb_ltb in E. apply Z.ltb_ge in E.
    split; [reflexivity|].
    assert (Z.log2_up k <= 12) as Hle.
    { destruct (Z_le_gt_dec (Z.log2_up k) 12) as [|Hgt]; [assumption|exfalso].
      assert (2 ^ 13 <= 2 ^ Z.log2_up k) by (apply Z.pow_le_mono_r; lia).
      unfold nextPowerOf2 in E. change (2 ^ 13) with 8192 in *. lia. }
    split; [exists (Z.log2_up k); split; [lia | reflexivity]|].
    split; [lia|]. intros Hk. split.
    + unfold nextPowerOf2.
      destruct (Z.eq_dec k 1) as [->|]; [now vm_compute|].
      apply Z.log2_up_spec. lia.
    + intros e He Hke. unfold nextPowerOf2.
      apply Z.pow_le_mono_r; [lia|].
      apply Z.log2_up_le_pow2; lia.
Qed.

(** Sizes around the powers of two, evaluated. *)
Example setSieveSize_examples :
  map (fun k => getSieveSize (fst (snd (setSieveSize k (PrimeSieve_new, [])))))
      [-5; 0; 1; 2; 3; 32; 33; 4096; 4097; 2 ^ 31 - 1]
  = [1; 1; 1; 2; 4; 32; 64; 4096; 4096; 4096].
Proof. reflexivity. Qed.

End SetterProofs.

(** ** [PrimeSieve.cpp]: what the commands do to counters and configuration *)

Section RunProofs.

Import Cxx Soe.
Open Scope Z_scope.

Lemma runs_ret w : runs (ret tt) w (counts_ (fst w)).
Proof. destruct w as [s tr]. exists s, tr. repeat split. Qed.

Lemma runs_bind (c : M unit) (k : unit -> M unit) w c1 c2 :
  runs c w c1 ->
  (forall w', config_of (fst w') = config_of (fst w) -> counts_ (fst w') = c1 ->
              runs (k tt) w' c2) ->
  runs (bind c k) w c2.
Proof.
  intros (s1 & tr1 & Hc & Hcfg & Hcnt) Hk.
  destruct (Hk (s1, tr1) Hcfg Hcnt) as (s2 & tr2 & Hk2 & Hcfg2 & Hcnt2).
  exists s2, tr2. unfold bind. rewrite Hc. simpl in *.
  split; [assumption|]. split; [congruence | assumption].
Qed.

Lemma runs_this (k : PrimeSieve -> M unit) w c' :
  runs (k (fst w)) w c' -> runs (bind this k) w c'.
Proof. intros H. unfold bind, this. exact H. Qed.

Lemma runs_emit e w : runs (emit e) w (counts_ (fst w)).
Proof. destruct w as [s tr]. exists s, (tr ++ [e]). repeat split. Qed.

Lemma runs_when_emit b e w : runs (when b (emit e)) w (counts_ (fst w)).
Proof. destruct b; [apply runs_emit | apply runs_ret]. Qed.

Lemma runs_modify_frame (f : PrimeSieve -> PrimeSieve) w :
  config_of (f (fst w)) = config_of (fst w) ->
  counts_ (f (fst w)) = counts_ (fst w) ->
  runs (modify f) w (counts_ (fst w)).
Proof.
  destruct w as [s tr]; simpl. intros H1 H2.
  exists (f s), tr. repeat split; assumption.
Qed.

Lemma runs_modify_counts (g : list Z -> list Z) w :
  runs (modify (fun s => set_counts (g (counts_ s)) s)) w (g (counts_ (fst w))).
Proof.
  destruct w as [s tr]. exists (set_counts (g (counts_ s)) s), tr. repeat split.
Qed.

Lemma updateStatus_obj_frame s segment :
  config_of (fst (updateStatus_obj s segment)) = config_of s /\
  counts_ (fst (updateStatus_obj s segment)) = counts_ s /\
  flags_ (fst (updateStatus_obj s segment)) = flags_ s.
Proof.
  destruct s as [st sp ps ss fl [p|] c sm iv stt sec c1 c2 c3 c4 o]; simpl.
  - destruct (updateStatus_obj p segment). repeat split.
  - match goal with |- context [if ?b then _ else _] => destruct b end; repeat split.
Qed.

Lemma runs_updateStatus segment w : runs (updateStatus segment) w (counts_ (fst w)).
Proof.
  destruct w as [s tr]. unfold runs, updateStatus. simpl.
  pose proof (updateStatus_obj_frame s segment) as (H1 & H2 & _).
  destruct (updateStatus_obj s segment) as [s' out]. simpl in *.
  exists s', (tr ++ out). repeat split; assumption.
Qed.

Lemma runs_when_updateStatus b segment w :
  runs (when b (updateStatus segment)) w (counts_ (fst w)).
Proof. destruct b; [apply runs_updateStatus | apply runs_ret]. Qed.

Lemma runs_reset w : runs reset w (repeat 0 7).
Proof.
  unfold reset.
  eapply runs_bind; [apply (runs_modify_frame (set_sumSegments 0)); reflexivity|].
  intros w1 Hc1 _.
  eapply runs_bind; [apply (runs_modify_counts (fun _ => repeat 0 7))|].
  intros w2 Hc2 Hn2.
  eapply runs_bind; [apply runs_modify_frame; reflexivity|].
  intros w3 Hc3 Hn3.
  eapply runs_bind; [apply (runs_modify_frame (set_status (-1)%float)); reflexivity|].
  intros w4 Hc4 Hn4.
  eapply runs_bind; [apply (runs_modify_frame (set_seconds 0%float)); reflexivity|].
  intros w5 Hc5 Hn5.
  apply runs_this.
  replace (repeat 0 7) with (counts_ (fst w5)) by congruence.
  apply runs_when_updateStatus.
Qed.

Lemma isCount_cfg s index : isCount s index = cfg_isCount (config_of s) index.
Proof. reflexivity. Qed.

Lemma runs_doSmallPrime sp w :
  runs (doSmallPrime sp) w (small_count (config_of (fst w)) sp (counts_ (fst w))).
Proof.
  unfold doSmallPrime. apply runs_this. unfold small_count.
  rewrite <- isCount_cfg.
  change (cfg_start (config_of (fst w))) with (start_ (fst w)).
  change (cfg_stop (config_of (fst w))) with (stop_ (fst w)).
  destruct ((start_ (fst w) <=? sp_min sp) && (sp_max sp <=? stop_ (fst w))); simpl;
    [|apply runs_ret].
  eapply runs_bind.
  { instantiate (1 := counts_ (fst w)).
    destruct (sp_index sp =? 0); simpl; [|apply runs_ret].
    eapply runs_bind; [apply runs_when_emit|]. intros w1 _ <-.
    eapply runs_bind; [apply runs_when_emit|]. intros w2 _ <-.
    eapply runs_bind; [apply runs_when_emit|]. intros w3 _ <-.
    apply runs_when_emit. }
  intros w1 Hc1 Hn1.
  eapply runs_bind.
  { instantiate (1 := if isCount (fst w) (sp_index sp)
                      then counts_add (Z.to_nat (sp_index sp)) 1 (counts_ (fst w))
                      else counts_ (fst w)).
    destruct (isCount (fst w) (sp_index sp)); simpl.
    - rewrite <- Hn1.
      apply (runs_modify_counts (counts_add (Z.to_nat (sp_index sp)) 1)).
    - rewrite <- Hn1. apply runs_ret. }
  intros w2 Hc2 <-.
  apply runs_when_emit.
Qed.

Lemma runs_doSmallPrimes sps :
  forall w, runs (doSmallPrimes sps) w (small_counts (config_of (fst w)) sps (counts_ (fst w))).
Proof.
  induction sps as [|sp rest IH]; intros w; simpl.
  - apply runs_ret.
  - eapply runs_bind; [apply runs_doSmallPrime|].
    intros w1 Hc1 Hn1. unfold small_counts in *. simpl.
    rewrite <- Hn1, <- Hc1. apply IH.
Qed.

Lemma runs_perform a w : runs (perform a) w (action_count a (counts_ (fst w))).
Proof.
  destruct a as [index n|e|segment]; simpl.
  - apply (runs_modify_counts (counts_add index n)).
  - apply runs_emit.
  - apply runs_updateStatus.
Qed.

Lemma runs_performAll acts :
  forall w, runs (performAll acts) w (action_counts acts (counts_ (fst w))).
Proof.
  induction acts as [|a rest IH]; intros w; simpl.
  - apply runs_ret.
  - eapply runs_bind; [apply runs_perform|].
    intros w1 Hc1 Hn1. unfold action_counts in *. simpl.
    rewrite <- Hn1. apply IH.
Qed.

Section RunWithEngine.

Variable engine : Engine.
Variable elapsed : float.

Lemma runs_runEngine w :
  runs (runEngine engine) w
    (action_counts
       (engine_actions engine (config_of (fst w)) (fed_primes engine (config_of (fst w))))
       (counts_ (fst w))).
Proof. unfold runEngine. apply runs_this. apply runs_performAll. Qed.

(** A run over a valid interval returns normally, keeps the
    configuration, and leaves the counters that the configuration
    determines. *)
Lemma runs_sieve w :
  start_ (fst w) <= stop_ (fst w) ->
  runs (sieve engine elapsed) w (counts_after_sieve engine (config_of (fst w))).
Proof.
  intros Hle. unfold sieve. apply runs_this.
  replace (stop_ (fst w) <? start_ (fst w)) with false
    by (symmetry; apply Z.ltb_ge; assumption).
  unfold counts_after_sieve.
  change (cfg_start (config_of (fst w))) with (start_ (fst w)).
  change (cfg_stop (config_of (fst w))) with (stop_ (fst w)).
  eapply runs_bind; [apply runs_reset|]. intros w1 Hc1 Hn1.
  apply runs_this.
  change (start_ (fst w1)) with (cfg_start (config_of (fst w1))).
  rewrite Hc1. change (cfg_start (config_of (fst w))) with (start_ (fst w)).
  eapply runs_bind.
  { instantiate (1 := if start_ (fst w) <=? 5
                      then small_counts (config_of (fst w)) smallPrimes_ (repeat 0 7)
                      else repeat 0 7).
    destruct (start_ (fst w) <=? 5); unfold when.
    - rewrite <- Hn1, <- Hc1. apply runs_doSmallPrimes.
    - rewrite <- Hn1. apply runs_ret. }
  intros w2 Hc2 Hn2.
  apply runs_this.
  change (stop_ (fst w2)) with (cfg_stop (config_of (fst w2))).
  rewrite Hc2, Hc1. change (cfg_stop (config_of (fst w))) with (stop_ (fst w)).
  eapply runs_bind.
  { instantiate (1 := if stop_ (fst w) >=? 7
                      then action_counts
                             (engine_actions engine (config_of (fst w))
                                (fed_primes engine (config_of (fst w))))
                             (counts_ (fst w2))
                      else counts_ (fst w2)).
    destruct (stop_ (fst w) >=? 7); unfold when.
    - rewrite <- Hc1, <- Hc2. apply runs_runEngine.
    - apply runs_ret. }
  intros w3 Hc3 Hn3. rewrite Hn2 in Hn3.
  eapply runs_bind; [apply (runs_modify_frame (set_seconds elapsed)); reflexivity|].
  intros w4 Hc4 Hn4.
  apply runs_this.
  rewrite <- Hn3, <- Hn4.
  apply runs_when_updateStatus.
Qed.

End RunWithEngine.

End RunProofs.

(** ** Counting primes *)

Section PrimeCounting.

Import Primes.
Open Scope Z_scope.

(** Trial division decides primality. *)
Lemma is_prime_spec n : is_prime n = true <-> prime n.
Proof.
  unfold is_prime. rewrite andb_true_iff, forallb_forall, <- prime_alt.
  unfold Z.prime. rewrite Z.leb_le. split.
  - intros [Hn Hd]. split; [lia|].
    intros d Hd1 Hdiv.
    assert (In d (map Z.of_nat (seq 2 (Z.to_nat n - 2)))) as Hin.
    { apply in_map_iff. exists (Z.to_nat d). split; [lia|].
      apply in_seq. lia. }
    apply Hd in Hin. apply negb_true_iff, Z.eqb_neq in Hin.
    apply Hin. apply Z.mod_divide; [lia | assumption].
  - intros [Hn Hd]. split; [lia|].
    intros d Hin. apply in_map_iff in Hin. destruct Hin as (k & <- & Hk).
    apply in_seq in Hk.
    apply negb_true_iff, Z.eqb_neq. intros Hmod.
    apply (Hd (Z.of_nat k)); [lia|].
    apply Z.mod_divide; [lia | assumption].
Qed.

Lemma count_from_app lo a b :
  count_from lo (a + b) = count_from lo a + count_from (lo + Z.of_nat a) b.
Proof.
  revert lo. induction a as [|a IH]; intros lo.
  - simpl. f_equal. lia.
  - cbn [Nat.add count_from]. rewrite IH.
    replace (lo + 1 + Z.of_nat a) with (lo + Z.of_nat (S a)) by lia. lia.
Qed.

Lemma count_from_bounds lo len : 0 <= count_from lo len <= Z.of_nat len.
Proof.
  revert lo. induction len as [|len IH]; intros lo.
  - simpl. lia.
  - cbn [count_from]. specialize (IH (lo + 1)). destruct (is_prime lo); lia.
Qed.

Lemma primes_between_bounds lo hi :
  lo <= hi + 1 -> 0 <= primes_between lo hi <= hi - lo + 1.
Proof.
  intros H. unfold primes_between.
  pose proof (count_from_bounds lo (Z.to_nat (hi - lo + 1))). lia.
Qed.

Lemma primes_between_split lo mid hi :
  lo <= mid + 1 -> mid <= hi ->
  primes_between lo hi = primes_between lo mid + primes_between (mid + 1) hi.
Proof.
  intros H1 H2. unfold primes_between.
  replace (Z.to_nat (hi - lo + 1))
    with (Z.to_nat (mid - lo + 1) + Z.to_nat (hi - (mid + 1) + 1))%nat by lia.
  rewrite count_from_app. f_equal. f_equal. lia.
Qed.

(** [pi(hi) - pi(lo - 1)] counts the primes from [lo] to [hi]. *)
Lemma prime_pi_difference lo hi :
  0 <= lo -> lo <= hi ->
  prime_pi hi - prime_pi (lo - 1) = primes_between lo hi.
Proof.
  intros H1 H2. unfold prime_pi.
  rewrite (primes_between_split 0 (lo - 1) hi) by lia.
  replace (lo - 1 + 1) with lo by lia. lia.
Qed.

(** The primes of an interval: 2, 3 and 5 when they lie in it, and the
    primes from 7 on. *)
Lemma primes_between_small_and_wheel lo hi :
  0 <= lo -> lo <= hi ->
  primes_between lo hi
  = (if (lo <=? 2) && (2 <=? hi) then 1 else 0)
    + (if (lo <=? 3) && (3 <=? hi) then 1 else 0)
    + (if (lo <=? 5) && (5 <=? hi) then 1 else 0)
    + (if hi >=? 7 then primes_between (Z.max 7 lo) hi else 0).
Proof.
  intros H1 H2.
  destruct (Z_lt_le_dec hi 7) as [Hhi|Hhi].
  - replace (hi >=? 7) with false by (symmetry; rewrite Z.geb_leb; apply Z.leb_gt; lia).
    assert (hi = 0 \/ hi = 1 \/ hi = 2 \/ hi = 3 \/ hi = 4 \/ hi = 5 \/ hi = 6) as Hh by lia.
    assert (lo = 0 \/ lo = 1 \/ lo = 2 \/ lo = 3 \/ lo = 4 \/ lo = 5 \/ lo = 6) as Hl by lia.
    destruct Hh as [->|[->|[->|[->|[->|[->| ->]]]]]];
      destruct Hl as [->|[->|[->|[->|[->|[->| ->]]]]]];
      try lia; reflexivity.
  - replace (hi >=? 7) with true by (symmetry; apply Z.geb_le; lia).
    replace (2 <=? hi) with true by (symmetry; apply Z.leb_le; lia).
    replace (3 <=? hi) with true by (symmetry; apply Z.leb_le; lia).
    replace (5 <=? hi) with true by (symmetry; apply Z.leb_le; lia).
    rewrite !andb_true_r.
    destruct (Z_lt_le_dec lo 7) as [Hlo|Hlo].
    + rewrite (primes_between_split lo 6 hi) by lia.
      replace (Z.max 7 lo) with 7 by lia. change (6 + 1) with 7.
      assert (lo = 0 \/ lo = 1 \/ lo = 2 \/ lo = 3 \/ lo = 4 \/ lo = 5 \/ lo = 6) as Hl by lia.
      destruct Hl as [->|[->|[->|[->|[->|[->| ->]]]]]]; reflexivity.
    + replace (Z.max 7 lo) with lo by lia.
      replace (lo <=? 2) with false by (symmetry; apply Z.leb_gt; lia).
      replace (lo <=? 3) with false by (symmetry; apply Z.leb_gt; lia).
      replace (lo <=? 5) with false by (symmetry; apply Z.leb_gt; lia).
      reflexivity.
Qed.

End PrimeCounting.

(** ** [PrimeSieve.cpp]: [reset] and [sieve] *)

Section SieveProofs.

Import Cxx Soe.
Open Scope Z_scope.

(** [counts_[index] += n] keeps the seven counters seven. *)
Lemma counts_add_length index n counts :
  List.length (counts_add index n counts) = List.length counts.
Proof.
  revert index. induction counts as [|c rest IH]; intros [|i]; simpl; auto.
Qed.

Lemma small_total_bounds cfg sps : 0 <= small_total cfg sps <= Z.of_nat (List.length sps).
Proof.
  induction sps as [|sp rest IH]; simpl List.length; cbn [small_total]; [lia|].
  match goal with |- context [if ?b then _ else _] => destruct b end; lia.
Qed.

Lemma small_counts_head cfg sps :
  forall h t,
    0 <= h -> h + Z.of_nat (List.length sps) < 2 ^ 64 ->
    exists t', small_counts cfg sps (h :: t) = (h + small_total cfg sps) :: t'.
Proof.
  induction sps as [|sp rest IH]; intros h t Hh Hlt.
  - exists t. simpl. f_equal. lia.
  - unfold small_counts in *. cbn [fold_left small_total].
    simpl List.length in Hlt.
    pose proof (small_total_bounds cfg rest) as Hb.
    unfold small_count at 2.
    destruct ((cfg_start cfg <=? sp_min sp) && (sp_max sp <=? cfg_stop cfg)
              && cfg_isCount cfg (sp_index sp)); cbn [andb].
    + destruct (Z.to_nat (sp_index sp)) as [|i]; cbn [counts_add Nat.eqb].
      * destruct (IH (uint64 (h + 1)) t) as [t' Ht'].
        { unfold uint64. apply Z.mod_pos_bound. lia. }
        { unfold uint64. rewrite Z.mod_small by lia. lia. }
        exists t'. rewrite Ht'. unfold uint64. rewrite Z.mod_small by lia. f_equal. lia.
      * destruct (IH h (counts_add i 1 t)) as [t' Ht']; [lia | lia |].
        exists t'. rewrite Ht'. f_equal.
    + destruct (IH h t) as [t' Ht']; [lia | lia |].
      exists t'. rewrite Ht'. f_equal.
Qed.

Lemma uint64_add_l a b : uint64 (uint64 a + b) = uint64 (a + b).
Proof. unfold uint64. apply Zplus_mod_idemp_l. Qed.

Lemma action_counts_head acts :
  forall h t,
    0 <= h < 2 ^ 64 ->
    exists t', action_counts acts (h :: t) = uint64 (h + total_added 0 acts) :: t'.
Proof.
  induction acts as [|a rest IH]; intros h t Hh.
  - exists t. simpl. unfold uint64. rewrite Z.add_0_r, Z.mod_small by lia. reflexivity.
  - unfold action_counts in *. cbn [fold_left total_added].
    destruct a as [[|i] n|e|segment]; cbn [action_count counts_add Nat.eqb].
    + destruct (IH (uint64 (h + n)) t) as [t' Ht'].
      { unfold uint64. apply Z.mod_pos_bound. lia. }
      exists t'. rewrite Ht', uint64_add_l. f_equal. f_equal. lia.
    + destruct (IH h (counts_add i n t)) as [t' Ht']; [assumption|].
      exists t'. rewrite Ht'. f_equal.
    + apply IH; assumption.
    + apply IH; assumption.
Qed.

(** The table's share of [counts_[0]]: one for each of 2, 3 and 5 that
    lies in the interval. *)
Lemma small_total_primes cfg :
  cfg_isCount cfg 0 = true ->
  small_total cfg smallPrimes_
  = (if (cfg_start cfg <=? 2) && (2 <=? cfg_stop cfg) then 1 else 0)
    + (if (cfg_start cfg <=? 3) && (3 <=? cfg_stop cfg) then 1 else 0)
    + (if (cfg_start cfg <=? 5) && (5 <=? cfg_stop cfg) then 1 else 0).
Proof.
  intros H. unfold smallPrimes_. cbn [small_total sp_min sp_max sp_index].
  rewrite H. change (Z.to_nat 0) with 0%nat. change (Z.to_nat 1) with 1%nat.
  change (Z.to_nat 2) with 2%nat. change (Z.to_nat 3) with 3%nat.
  change (Z.to_nat 4) with 4%nat. cbn [Nat.eqb].
  rewrite !andb_false_r, !andb_true_r. lia.
Qed.

Section SieveWithEngine.

Variable engine : Engine.
Variable elapsed : float.

(** [counts_[0]] after a run, from the configuration. *)
Lemma counts_after_sieve_primes cfg :
  cfg_isCount cfg 0 = true ->
  nth 0 (counts_after_sieve engine cfg) 0
  = let small := if cfg_start cfg <=? 5 then small_total cfg smallPrimes_ else 0 in
    if cfg_stop cfg >=? 7
    then uint64 (small + total_added 0 (engine_actions engine cfg (fed_primes engine cfg)))
    else small.
Proof.
  intros H. unfold counts_after_sieve. cbv zeta.
  assert (exists t, (if cfg_start cfg <=? 5
                     then small_counts cfg smallPrimes_ (repeat 0 7)
                     else repeat 0 7)
                    = (if cfg_start cfg <=? 5 then small_total cfg smallPrimes_ else 0) :: t)
    as [t Ht].
  { destruct (cfg_start cfg <=? 5).
    - change (repeat 0 7) with (0 :: repeat 0 6).
      destruct (small_counts_head cfg smallPrimes_ 0 (repeat 0 6)) as [t Ht];
        [lia | simpl; lia |].
      exists t. rewrite Ht. reflexivity.
    - exists (repeat 0 6). reflexivity. }
  rewrite Ht.
  assert (0 <= (if cfg_start cfg <=? 5 then small_total cfg smallPrimes_ else 0) < 2 ^ 64)
    as Hsmall.
  { pose proof (small_total_bounds cfg smallPrimes_) as Hb. simpl List.length in Hb.
    destruct (cfg_start cfg <=? 5); lia. }
  destruct (cfg_stop cfg >=? 7).
  - destruct (action_counts_head
                (engine_actions engine cfg (fed_primes engine cfg)) _ t Hsmall) as [t' Ht'].
    rewrite Ht'. reflexivity.
  - reflexivity.
Qed.

(** C1.  Let the engine count primes as the spec says.  Then for every
    object with [COUNT_PRIMES] set and [0 <= start <= stop] below the
    bound of [setStop], [sieve()] returns normally and leaves
    [pi(stop) - pi(start - 1)] in [getPrimeCount()], of which the table
    of small primes contributes one for each of 2, 3 and 5 that lies in
    [[start, stop]].  In particular, on a new object,
    [getPrimeCount(0, 0) = 0], [getPrimeCount(2, 2) = 1] and
    [getPrimeCount(1, 1) = 0]. *)
Theorem sieve_counts_primes :
  finder_counts_primes engine ->
  (forall (s : PrimeSieve) (tr : list Event),
      isFlag s COUNT_PRIMES = true ->
      0 <= start_ s -> start_ s <= stop_ s ->
      stop_ s < UINT64_MAX - UINT32_MAX * 10 ->
      exists s' tr',
        sieve engine elapsed (s, tr) = (Ok tt, (s', tr')) /\
        getPrimeCount s' = Primes.prime_pi (stop_ s) - Primes.prime_pi (start_ s - 1) /\
        (if start_ s <=? 5 then small_total (config_of s) smallPrimes_ else 0)
        = (if (start_ s <=? 2) && (2 <=? stop_ s) then 1 else 0)
          + (if (start_ s <=? 3) && (3 <=? stop_ s) then 1 else 0)
          + (if (start_ s <=? 5) && (5 <=? stop_ s) then 1 else 0))
  /\ fst (countPrimes engine elapsed 0 0 (PrimeSieve_new, [])) = Ok 0
  /\ fst (countPrimes engine elapsed 2 2 (PrimeSieve_new, [])) = Ok 1
  /\ fst (countPrimes engine elapsed 1 1 (PrimeSieve_new, [])) = Ok 0.
Proof.
  intros Hspec. split; [|repeat split].
  intros s tr Hflag H0 Hle Hmax.
  destruct (runs_sieve engine elapsed (s, tr) Hle) as (s' & tr' & Hrun & Hcfg & Hcnt).
  simpl fst in *.
  assert (cfg_isCount (config_of s) 0 = true) as Hc by exact Hflag.
  assert ((if start_ s <=? 5 then small_total (config_of s) smallPrimes_ else 0)
          = (if (start_ s <=? 2) && (2 <=? stop_ s) then 1 else 0)
            + (if (start_ s <=? 3) && (3 <=? stop_ s) then 1 else 0)
            + (if (start_ s <=? 5) && (5 <=? stop_ s) then 1 else 0)) as Hsmall.
  { rewrite (small_total_primes _ Hc).
    change (cfg_start (config_of s)) with (start_ s).
    change (cfg_stop (config_of s)) with (stop_ s).
    destruct (start_ s <=? 5) eqn:E5; [reflexivity|].
    apply Z.leb_gt in E5.
    replace (start_ s <=? 2) with false by (symmetry; apply Z.leb_gt; lia).
    replace (start_ s <=? 3) with false by (symmetry; apply Z.leb_gt; lia).
    reflexivity. }
  exists s', tr'. split; [assumption|]. split; [|assumption].
  unfold getPrimeCount. rewrite Hcnt, (counts_after_sieve_primes _ Hc). cbv zeta.
  change (cfg_start (config_of s)) with (start_ s).
  change (cfg_stop (config_of s)) with (stop_ s).
  rewrite Hsmall.
  rewrite (prime_pi_difference _ _ H0 Hle).
  rewrite (primes_between_small_and_wheel _ _ H0 Hle).
  destruct (stop_ s >=? 7) eqn:E7; [|lia].
  apply Z.geb_le in E7.
  rewrite (Hspec (config_of s) Hc H0 Hle E7 Hmax).
  change (cfg_start (config_of s)) with (start_ s).
  change (cfg_stop (config_of s)) with (stop_ s).
  pose proof (primes_between_bounds (Z.max 7 (start_ s)) (stop_ s) ltac:(lia)) as Hb.
  assert (UINT64_MAX - UINT32_MAX * 10 < 2 ^ 64) by reflexivity.
  unfold uint64. apply Z.mod_small.
  repeat match goal with |- context [if ?b then _ else _] => destruct b end; lia.
Qed.

(** C3.  [sieve()] throws when [stop < start], and then the object and
    the output are as before the call: nothing is counted, printed or
    called back; when [start <= stop] it returns normally. *)
Theorem sieve_throws_iff_inverted (s : PrimeSieve) (tr : list Event) :
  (stop_ s < start_ s ->
     sieve engine elapsed (s, tr) = (Throw "STOP must be >= START", (s, tr)))
  /\
  (start_ s <= stop_ s ->
     exists s' tr', sieve engine elapsed (s, tr) = (Ok tt, (s', tr'))).
Proof.
  split; intros H.
  - unfold sieve, bind, this. cbn [fst].
    replace (stop_ s <? start_ s) with true by (symmetry; apply Z.ltb_lt; assumption).
    reflexivity.
  - destruct (runs_sieve engine elapsed (s, tr) H) as (s' & tr' & Hrun & _).
    exists s', tr'. assumption.
Qed.

(** C6.  Two runs in a row over a valid interval both return normally
    and the second leaves the counters the first left: those that the
    configuration determines, counted from zero, whatever the counters
    held before. *)
Theorem sieve_twice_same_counts (s : PrimeSieve) (tr : list Event) :
  start_ s <= stop_ s ->
  exists s1 tr1 s2 tr2,
    sieve engine elapsed (s, tr) = (Ok tt, (s1, tr1)) /\
    sieve engine elapsed (s1, tr1) = (Ok tt, (s2, tr2)) /\
    counts_ s2 = counts_ s1 /\
    counts_ s1 = counts_after_sieve engine (config_of s) /\
    config_of s2 = config_of s.
Proof.
  intros H.
  destruct (runs_sieve engine elapsed (s, tr) H) as (s1 & tr1 & Hrun1 & Hcfg1 & Hcnt1).
  simpl fst in *.
  assert (start_ s1 <= stop_ s1) as H1.
  { change (cfg_start (config_of s1) <= cfg_stop (config_of s1)). rewrite Hcfg1. exact H. }
  destruct (runs_sieve engine elapsed (s1, tr1) H1) as (s2 & tr2 & Hrun2 & Hcfg2 & Hcnt2).
  simpl fst in *.
  exists s1, tr1, s2, tr2. repeat split; try assumption; congruence.
Qed.

End SieveWithEngine.

End SieveProofs.

Section ResetProofs.

Import Cxx Soe.
Open Scope Z_scope.

Lemma reset_unfold s tr :
  reset (s, tr)
  = if isStatus s then updateStatus 0 (cleared s, tr) else (Ok tt, (cleared s, tr)).
Proof.
  unfold reset, bind, modify, this, when, cleared. cbn [fst snd].
  change (isStatus _) with (isStatus s).
  destruct (isStatus s); reflexivity.
Qed.

(** C5, as stated, fails: with [CALCULATE_STATUS] set, [reset] ends with
    [updateStatus(0)], and the status of a new object is [0], not [-1]. *)
Lemma reset_status_with_status_flag :
  getStatus (fst (snd (reset (set_flags CALCULATE_STATUS PrimeSieve_new, [])))) = 0%float
  /\ getStatus (fst (snd (reset (set_flags CALCULATE_STATUS PrimeSieve_new, []))))
     <> (-1)%float.
Proof.
  split.
  - vm_compute. reflexivity.
  - intros H. apply (f_equal Prim2SF) in H. vm_compute in H. discriminate H.
Qed.

(** C5, amended.  [reset] returns normally and leaves the seven counters
    zero.  The status it leaves is [-1] when no status flag is set or
    when the object reports to a parent; with a status flag set and no
    parent it is the percentage [updateStatus(0)] computes,
    [min(0 / interval * 100, 100)]. *)
Theorem reset_zeroes_counts (s : PrimeSieve) (tr : list Event) :
  let s' := fst (snd (reset (s, tr))) in
  fst (reset (s, tr)) = Ok tt /\
  counts_ s' = [0; 0; 0; 0; 0; 0; 0] /\
  (getPrimeCount s' = 0 /\ getTwinCount s' = 0 /\ getTripletCount s' = 0 /\
   getQuadrupletCount s' = 0 /\ getQuintupletCount s' = 0 /\
   getSextupletCount s' = 0 /\ getSeptupletCount s' = 0) /\
  (isStatus s = false \/ parent_ s <> None -> getStatus s' = (-1)%float) /\
  (isStatus s = true -> parent_ s = None ->
   getStatus s'
   = std_min (double_of_Z 0 / double_of_Z (uint64 (stop_ s - start_ s + 1)) * 100) 100%float).
Proof.
  cbv zeta.
  destruct (runs_reset (s, tr)) as (s' & tr' & Hrun & _ & Hcnt).
  rewrite Hrun. cbn [fst snd].
  split; [reflexivity|]. split; [exact Hcnt|].
  split; [unfold getPrimeCount, getTwinCount, getTripletCount, getQuadrupletCount,
            getQuintupletCount, getSextupletCount, getSeptupletCount;
          rewrite Hcnt; repeat split|].
  rewrite reset_unfold in Hrun.
  split.
  - intros Hcase. destruct (isStatus s) eqn:Est.
    + destruct Hcase as [Hf|Hp]; [discriminate|].
      unfold updateStatus in Hrun. cbn [fst snd] in Hrun.
      destruct s as [st sp ps ss fl [p|] c sm iv stt sec c1 c2 c3 c4 o];
        [|exfalso; apply Hp; reflexivity].
      cbn in Hrun. destruct (updateStatus_obj p 0) as [p' out].
      inversion Hrun. reflexivity.
    + inversion Hrun. reflexivity.
  - intros Est Hp. rewrite Est in Hrun.
    unfold updateStatus in Hrun. cbn [fst snd] in Hrun.
    destruct s as [st sp ps ss fl p c sm iv stt sec c1 c2 c3 c4 o].
    cbn [parent_] in Hp. subst p.
    cbn [updateStatus_obj cleared parent_ set_seconds set_status set_interval set_counts
         set_sumSegments sumSegments_ interval_ status_ start_ stop_ flags_ isFlag] in Hrun.
    match type of Hrun with
    | context [if ?b then _ else _] => destruct b
    end; inversion Hrun; reflexivity.
Qed.

End ResetProofs.

(** ** [PrimeSieve.cpp]: [generatePrimes] *)

Section GenerateProofs.

Import Cxx Soe.
Open Scope Z_scope.

Variable engine : Engine.
Variable elapsed : float.

(** [sieve()] never changes the configuration, whether it throws or not. *)
Lemma sieve_keeps_config w :
  config_of (fst (snd (sieve engine elapsed w))) = config_of (fst w).
Proof.
  destruct (Z_lt_le_dec (stop_ (fst w)) (start_ (fst w))) as [H|H].
  - unfold sieve, bind, this.
    replace (stop_ (fst w) <? start_ (fst w)) with true
      by (symmetry; apply Z.ltb_lt; assumption).
    reflexivity.
  - destruct (runs_sieve engine elapsed w H) as (s' & tr' & Hrun & Hcfg & _).
    rewrite Hrun. exact Hcfg.
Qed.

Lemma generate_tail_unfold flag start stop s tr :
  start < UINT64_MAX - UINT32_MAX * 10 ->
  stop < UINT64_MAX - UINT32_MAX * 10 ->
  generate_tail engine elapsed flag start stop (s, tr)
  = sieve engine elapsed
      (set_stop stop (set_start start (set_preSieve 17 (set_flags flag s))), tr).
Proof.
  intros H1 H2.
  unfold generate_tail, sieve2, setPreSieve, setStart, setStop.
  change (uint64 (UINT64_MAX - uint64 (UINT32_MAX * 10)))
    with (UINT64_MAX - UINT32_MAX * 10).
  replace (start >=? UINT64_MAX - UINT32_MAX * 10) with false
    by (symmetry; rewrite Z.geb_leb; apply Z.leb_gt; assumption).
  replace (stop >=? UINT64_MAX - UINT32_MAX * 10) with false
    by (symmetry; rewrite Z.geb_leb; apply Z.leb_gt; assumption).
  reflexivity.
Qed.

(** The flags a single callback flag leaves: no counter, no printer. *)
Lemma callback_flag_alone s flag :
  In flag [CALLBACK32_PRIMES; CALLBACK64_PRIMES; CALLBACK32_OOP_PRIMES;
           CALLBACK64_OOP_PRIMES] ->
  flags_ s = flag ->
  forall index, 0 <= index < 7 -> isCount s index = false /\ isPrint s index = false.
Proof.
  intros Hin Hf index Hi. unfold isCount, isPrint, isFlag. rewrite Hf.
  assert (index = 0 \/ index = 1 \/ index = 2 \/ index = 3 \/ index = 4 \/
          index = 5 \/ index = 6) as Hc by lia.
  simpl in Hin.
  destruct Hin as [<-|[<-|[<-|[<-|[]]]]];
    destruct Hc as [->|[->|[->|[->|[->|[->| ->]]]]]]; split; reflexivity.
Qed.

(** Flags and pre-sieve limit are assigned before the interval is
    checked, and nothing after that changes them. *)
Lemma generate_tail_flags flag start stop s tr :
  let w' := snd (generate_tail engine elapsed flag start stop (s, tr)) in
  flags_ (fst w') = flag /\ preSieve_ (fst w') = 17.
Proof.
  cbv zeta.
  destruct (start >=? UINT64_MAX - UINT32_MAX * 10) eqn:E1.
  - unfold generate_tail, sieve2, setPreSieve, setStart.
    change (uint64 (UINT64_MAX - uint64 (UINT32_MAX * 10)))
      with (UINT64_MAX - UINT32_MAX * 10).
    rewrite E1. split; reflexivity.
  - destruct (stop >=? UINT64_MAX - UINT32_MAX * 10) eqn:E2.
    + unfold generate_tail, sieve2, setPreSieve, setStart, setStop.
      change (uint64 (UINT64_MAX - uint64 (UINT32_MAX * 10)))
        with (UINT64_MAX - UINT32_MAX * 10).
      rewrite E1, E2. split; reflexivity.
    + rewrite Z.geb_leb in E1, E2. apply Z.leb_gt in E1, E2.
      rewrite generate_tail_unfold by assumption.
      split.
      * change (cfg_flags (config_of (fst (snd (sieve engine elapsed
                  (set_stop stop (set_start start (set_preSieve 17 (set_flags flag s))),
                   tr))))) = flag).
        rewrite sieve_keeps_config. reflexivity.
      * change (cfg_preSieve (config_of (fst (snd (sieve engine elapsed
                  (set_stop stop (set_start start (set_preSieve 17 (set_flags flag s))),
                   tr))))) = 17).
        rewrite sieve_keeps_config. reflexivity.
Qed.

(** The configuration a call leaves, on every path: the start number is
    stored when [setStart] accepts it, the stop number when both are
    accepted. *)
Lemma generate_tail_config flag start stop s tr :
  config_of (fst (snd (generate_tail engine elapsed flag start stop (s, tr))))
  = mkConfig
      (if start <? UINT64_MAX - UINT32_MAX * 10 then start else start_ s)
      (if (start <? UINT64_MAX - UINT32_MAX * 10) && (stop <? UINT64_MAX - UINT32_MAX * 10)
       then stop else stop_ s)
      17 (sieveSize_ s) flag
      (callback32_ s) (callback64_ s) (callback32_OOP_ s) (callback64_OOP_ s) (obj_ s).
Proof.
  destruct (Z_lt_le_dec start (UINT64_MAX - UINT32_MAX * 10)) as [H1|H1].
  - replace (start <? UINT64_MAX - UINT32_MAX * 10) with true
      by (symmetry; apply Z.ltb_lt; assumption).
    destruct (Z_lt_le_dec stop (UINT64_MAX - UINT32_MAX * 10)) as [H2|H2].
    + replace (stop <? UINT64_MAX - UINT32_MAX * 10) with true
        by (symmetry; apply Z.ltb_lt; assumption).
      rewrite generate_tail_unfold by assumption.
      rewrite sieve_keeps_config. reflexivity.
    + replace (stop <? UINT64_MAX - UINT32_MAX * 10) with false
        by (symmetry; apply Z.ltb_ge; assumption).
      unfold generate_tail, sieve2, setPreSieve, setStart, setStop.
      change (uint64 (UINT64_MAX - uint64 (UINT32_MAX * 10)))
        with (UINT64_MAX - UINT32_MAX * 10).
      replace (start >=? UINT64_MAX - UINT32_MAX * 10) with false
        by (symmetry; rewrite Z.geb_leb; apply Z.leb_gt; assumption).
      replace (stop >=? UINT64_MAX - UINT32_MAX * 10) with true
        by (symmetry; apply Z.geb_le; assumption).
      reflexivity.
  - replace (start <? UINT64_MAX - UINT32_MAX * 10) with false
      by (symmetry; apply Z.ltb_ge; assumption).
    unfold generate_tail, sieve2, setPreSieve, setStart.
    change (uint64 (UINT64_MAX - uint64 (UINT32_MAX * 10)))
      with (UINT64_MAX - UINT32_MAX * 10).
    replace (start >=? UINT64_MAX - UINT32_MAX * 10) with true
      by (symmetry; apply Z.geb_le; assumption).
    reflexivity.
Qed.

Lemma generate_tail_overwritten flag start stop s tr :
  In flag [CALLBACK32_PRIMES; CALLBACK64_PRIMES; CALLBACK32_OOP_PRIMES;
           CALLBACK64_OOP_PRIMES] ->
  overwritten engine elapsed start stop flag
    (mkConfig
       (if start <? UINT64_MAX - UINT32_MAX * 10 then start else start_ s)
       (if (start <? UINT64_MAX - UINT32_MAX * 10) && (stop <? UINT64_MAX - UINT32_MAX * 10)
        then stop else stop_ s)
       17 (sieveSize_ s) flag
       (callback32_ s) (callback64_ s) (callback32_OOP_ s) (callback64_OOP_ s) (obj_ s))
    (snd (generate_tail engine elapsed flag start stop (s, tr))).
Proof.
  intros Hin.
  destruct (generate_tail_flags flag start stop s tr) as [Hf Hp].
  pose proof (generate_tail_config flag start stop s tr) as Hc.
  unfold overwritten, getPreSieve, getStart, getStop.
  split; [exact Hf|]. split; [exact Hp|].
  split; [apply (callback_flag_alone _ flag Hin Hf)|].
  split; [apply sieve_keeps_config|].
  split; [exact Hc|].
  intros H1 H2.
  apply Z.ltb_lt in H1, H2. rewrite H1, H2 in Hc. cbn [andb] in Hc.
  split.
  - change (cfg_start (config_of
              (fst (snd (generate_tail engine elapsed flag start stop (s, tr))))) = start).
    rewrite Hc. reflexivity.
  - change (cfg_stop (config_of
              (fst (snd (generate_tail engine elapsed flag start stop (s, tr))))) = stop).
    rewrite Hc. reflexivity.
Qed.

(** C10, amended.  A call of any of the four [generatePrimes] with a
    [NULL] callback (or, for the two variants with an object, a [NULL]
    object) throws and changes nothing.  Every other call leaves,
    whether it throws later or not, the flags equal to the one callback
    flag, so that no count or print flag is set any more, and the
    pre-sieve limit 17; a later [sieve()] runs with this configuration
    and keeps it.  The start number is the argument when [setStart]
    accepts it and the stop number is the argument when both are
    accepted; a refused number leaves the old one.  The callback (and
    object) is stored, the sieve size and the other callbacks are as
    before. *)
Theorem generatePrimes_overwrites_configuration
  (start stop callback obj : Z) (s : PrimeSieve) (tr : list Event) :
  let start' := if start <? UINT64_MAX - UINT32_MAX * 10 then start else start_ s in
  let stop' :=
    if (start <? UINT64_MAX - UINT32_MAX * 10) && (stop <? UINT64_MAX - UINT32_MAX * 10)
    then stop else stop_ s in
  (callback = NULL ->
     generatePrimes32 engine elapsed start stop callback (s, tr)
     = (Throw "callback must not be NULL", (s, tr)) /\
     generatePrimes64 engine elapsed start stop callback (s, tr)
     = (Throw "callback must not be NULL", (s, tr)))
  /\
  (callback = NULL \/ obj = NULL ->
     generatePrimes32_OOP engine elapsed start stop callback obj (s, tr)
     = (Throw "callback & obj must not be NULL", (s, tr)) /\
     generatePrimes64_OOP engine elapsed start stop callback obj (s, tr)
     = (Throw "callback & obj must not be NULL", (s, tr)))
  /\
  (callback <> NULL ->
     overwritten engine elapsed start stop CALLBACK32_PRIMES
       (mkConfig start' stop' 17 (sieveSize_ s) CALLBACK32_PRIMES
          callback (callback64_ s) (callback32_OOP_ s) (callback64_OOP_ s) (obj_ s))
       (snd (generatePrimes32 engine elapsed start stop callback (s, tr)))
     /\
     overwritten engine elapsed start stop CALLBACK64_PRIMES
       (mkConfig start' stop' 17 (sieveSize_ s) CALLBACK64_PRIMES
          (callback32_ s) callback (callback32_OOP_ s) (callback64_OOP_ s) (obj_ s))
       (snd (generatePrimes64 engine elapsed start stop callback (s, tr))))
  /\
  (callback <> NULL -> obj <> NULL ->
     overwritten engine elapsed start stop CALLBACK32_OOP_PRIMES
       (mkConfig start' stop' 17 (sieveSize_ s) CALLBACK32_OOP_PRIMES
          (callback32_ s) (callback64_ s) callback (callback64_OOP_ s) obj)
       (snd (generatePrimes32_OOP engine elapsed start stop callback obj (s, tr)))
     /\
     overwritten engine elapsed start stop CALLBACK64_OOP_PRIMES
       (mkConfig start' stop' 17 (sieveSize_ s) CALLBACK64_OOP_PRIMES
          (callback32_ s) (callback64_ s) (callback32_OOP_ s) callback obj)
       (snd (generatePrimes64_OOP engine elapsed start stop callback obj (s, tr)))).
Proof.
  cbv zeta.
  unfold generatePrimes32, generatePrimes64, generatePrimes32_OOP, generatePrimes64_OOP.
  split; [|split; [|split]].
  - intros ->. split; reflexivity.
  - intros Hnull.
    assert ((callback =? NULL) || (obj =? NULL) = true) as ->.
    { apply orb_true_iff. destruct Hnull as [-> | ->]; [left | right]; reflexivity. }
    split; reflexivity.
  - intros Hcb.
    assert ((callback =? NULL) = false) as -> by (apply Z.eqb_neq; assumption).
    split.
    + apply (generate_tail_overwritten CALLBACK32_PRIMES start stop
               (set_callback32 callback s)). simpl. tauto.
    + apply (generate_tail_overwritten CALLBACK64_PRIMES start stop
               (set_callback64 callback s)). simpl. tauto.
  - intros Hcb Hobj.
    assert ((callback =? NULL) = false) as -> by (apply Z.eqb_neq; assumption).
    assert ((obj =? NULL) = false) as -> by (apply Z.eqb_neq; assumption).
    cbn [orb]. split.
    + apply (generate_tail_overwritten CALLBACK32_OOP_PRIMES start stop
               (set_obj obj (set_callback32_OOP callback s))). simpl. tauto.
    + apply (generate_tail_overwritten CALLBACK64_OOP_PRIMES start stop
               (set_obj obj (set_callback64_OOP callback s))). simpl. tauto.
Qed.

End GenerateProofs.

(** ** The theorems about [sieve] at a concrete engine and object *)

Section Instances.

Import Cxx Soe.
Open Scope Z_scope.

Lemma prime_counting_engine_counts : finder_counts_primes prime_counting_engine.
Proof.
  intros cfg Hc _ _ _ _. unfold prime_counting_engine. cbn [engine_actions].
  rewrite Hc. cbn [total_added Nat.eqb]. lia.
Qed.

(** The interval [[1, 100]] holds 25 primes. *)
Lemma sieve_counts_primes_witness :
  exists s' tr',
    sieve prime_counting_engine 0%float (set_stop 100 (set_start 1 PrimeSieve_new), [])
    = (Ok tt, (s', tr'))
    /\ getPrimeCount s' = 25.
Proof.
  destruct (sieve_counts_primes prime_counting_engine 0%float prime_counting_engine_counts)
    as [H _].
  destruct (H (set_stop 100 (set_start 1 PrimeSieve_new)) [])
    as (s' & tr' & Hrun & Hcount & _).
  - reflexivity.
  - simpl; lia.
  - simpl; lia.
  - reflexivity.
  - exists s', tr'. split; [exact Hrun|]. rewrite Hcount. reflexivity.
Defined.

(** Two runs over [[1, 100]]. *)
Lemma sieve_twice_same_counts_witness :
  exists s1 tr1 s2 tr2,
    sieve prime_counting_engine 0%float (set_stop 100 (set_start 1 PrimeSieve_new), [])
    = (Ok tt, (s1, tr1)) /\
    sieve prime_counting_engine 0%float (s1, tr1) = (Ok tt, (s2, tr2)) /\
    counts_ s2 = counts_ s1 /\
    counts_ s1
    = counts_after_sieve prime_counting_engine
        (config_of (set_stop 100 (set_start 1 PrimeSieve_new))) /\
    config_of s2 = config_of (set_stop 100 (set_start 1 PrimeSieve_new)).
Proof.
  apply (sieve_twice_same_counts prime_counting_engine 0%float
           (set_stop 100 (set_start 1 PrimeSieve_new)) []).
  simpl; lia.
Defined.

(** Scenario 1 of the spec with this engine: 25 primes up to 100, and the
    same 25 after a second run. *)
Example count_primes_1_100 :
  fst (countPrimes prime_counting_engine 0%float 1 100 (PrimeSieve_new, [])) = Ok 25 /\
  fst ((sieve2 prime_counting_engine 0%float 1 100 ;;
        sieve prime_counting_engine 0%float ;;
        s <- this ;; ret (counts_ s)) (PrimeSieve_new, []))
  = Ok [25; 0; 0; 0; 0; 0; 0].
Proof. split; vm_compute; reflexivity. Qed.

(** A new object, which counts primes, after [generatePrimes(0, 100, f)]. *)
Lemma generatePrimes_overwrites_configuration_witness :
  flags_ (fst (snd (generatePrimes64 prime_counting_engine 0%float 0 100 1
                      (PrimeSieve_new, []))))
  = CALLBACK64_PRIMES
  /\ getPreSieve (fst (snd (generatePrimes64 prime_counting_engine 0%float 0 100 1
                             (PrimeSieve_new, []))))
     = 17
  /\ getStop (fst (snd (generatePrimes64 prime_counting_engine 0%float 0 100 1
                          (PrimeSieve_new, []))))
     = 100.
Proof.
  pose proof (generatePrimes_overwrites_configuration prime_counting_engine 0%float
                0 100 1 2 PrimeSieve_new []) as H.
  cbv zeta in H. destruct H as (_ & _ & H & _).
  assert (1 <> NULL) as Hcb by discriminate.
  destruct (H Hcb) as (_ & Hf & Hp & _ & _ & _ & Hi).
  split; [exact Hf|]. split; [exact Hp|].
  apply Hi; reflexivity.
Defined.

(** C10, as stated, fails for two kinds of call.  With a [NULL] callback
    [generatePrimes(0, 100, NULL)] throws before anything is assigned: a
    new object still counts primes, has the pre-sieve limit 19 and the
    stop number 0.  With a stop number that [setStop] refuses,
    [generatePrimes(0, 2^64 - 1, f)] throws with the flags and the
    pre-sieve limit overwritten and the stop number still 0. *)
Lemma generatePrimes_refused_call :
  generatePrimes64 prime_counting_engine 0%float 0 100 NULL (PrimeSieve_new, [])
  = (Throw "callback must not be NULL", (PrimeSieve_new, []))
  /\ flags_ PrimeSieve_new = COUNT_PRIMES
  /\ getPreSieve PrimeSieve_new = 19
  /\ getStop PrimeSieve_new = 0
  /\ fst (generatePrimes64 prime_counting_engine 0%float 0 (2 ^ 64 - 1) 1
            (PrimeSieve_new, []))
     = Throw "STOP must be < (2^64-1) - (2^32-1) * 10"
  /\ flags_ (fst (snd (generatePrimes64 prime_counting_engine 0%float 0 (2 ^ 64 - 1) 1
                         (PrimeSieve_new, []))))
     = CALLBACK64_PRIMES
  /\ getStop (fst (snd (generatePrimes64 prime_counting_engine 0%float 0 (2 ^ 64 - 1) 1
                          (PrimeSieve_new, []))))
     = 0.
Proof. repeat split. Qed.

(** A [NULL] callback is refused before anything is assigned; a
    configured counter is lost by a call that is accepted. *)
Example generatePrimes_examples :
  generatePrimes64 prime_counting_engine 0%float 0 100 NULL (PrimeSieve_new, [])
  = (Throw "callback must not be NULL", (PrimeSieve_new, []))
  /\ isCount PrimeSieve_new 0 = true
  /\ isCount (fst (snd (generatePrimes64 prime_counting_engine 0%float 0 100 1
                          (PrimeSieve_new, [])))) 0 = false
  /\ snd (snd (generatePrimes64 prime_counting_engine 0%float 0 6 1 (PrimeSieve_new, [])))
     = [EvCallback64 1 2; EvCallback64 1 3; EvCallback64 1 5].
Proof. repeat split. Qed.

End Instances.

(** ** [iterator.cpp]: the batch size of [get_interval_size] *)

Section IterProofs.

Import Cxx Iter.
Open Scope Z_scope.

Variable log : float -> float.
Variable max_stop : Z.

(** [skipto] resets the call counter, on every path. *)
Lemma skipto_resets_count start it : count_ (snd (skipto max_stop start it)) = 0.
Proof.
  unfold skipto. cbn [start_ primes_].
  destruct (start >? max_stop); [reflexivity|].
  destruct (primes_ it) as [|front rest]; [reflexivity|].
  match goal with |- context [if ?b then _ else _] => destruct b end; reflexivity.
Qed.

(** Each call adds one to the counter, as long as it does not wrap. *)
Lemma regenerate_count ns :
  forall it,
    0 <= count_ it -> count_ it + Z.of_nat (List.length ns) < 2 ^ 64 ->
    count_ (regenerate log ns it) = count_ it + Z.of_nat (List.length ns).
Proof.
  induction ns as [|n rest IH]; intros it H0 Hlt.
  - simpl. lia.
  - cbn [regenerate]. simpl List.length in *.
    rewrite IH; cbn [get_interval_size snd count_]; unfold uint64;
      rewrite Z.mod_small by lia; lia.
Qed.

Lemma base_primes_values count :
  base_primes count = if count <? 10 then 4096 else 524288.
Proof. unfold base_primes. destruct (count <? 10); reflexivity. Qed.

Lemma max_primes_value : max_primes = 67108864.
Proof. reflexivity. Qed.

(** C7, amended.  After [skipto], let [get_interval_size] have been
    called [k] times, with [k + 1] below [2^64].  In the next call, the
    [(k+1)]-th, the base is 32 KiB / 8 = 4096 primes when [k + 1 < 10],
    that is on the first nine calls, and 4 MiB / 8 = 524288 primes from
    the tenth call on; the batch is the base raised to [sqrtx_primes]
    when that is larger and cut at 512 MiB / 8 = 67108864; and the
    interval size returned is that batch times [log x], truncated. *)
Theorem get_interval_size_batch
  (start : Z) (it : iterator) (ns : list Z) (n : Z) :
  Z.of_nat (List.length ns) + 1 < 2 ^ 64 ->
  let k := Z.of_nat (List.length ns) in
  let call := get_interval_size log n (regenerate log ns (snd (skipto max_stop start it))) in
  let base := if k + 1 <? 10 then 4096 else 524288 in
  count_ (snd call) = k + 1 /\
  base_primes (count_ (snd call)) = base /\
  primes_per_batch log (count_ (snd call)) n
  = Z.min (Z.max base (sqrtx_primes log n)) 67108864 /\
  base <= Z.max base (sqrtx_primes log n) /\
  primes_per_batch log (count_ (snd call)) n <= 67108864 /\
  fst call
  = uint64_of_double
      (double_of_Z (primes_per_batch log (count_ (snd call)) n) * log (clamped_x n))%float.
Proof.
  intros Hlt k call base.
  assert (count_ (snd call) = k + 1) as Hc.
  { subst call k. cbn [get_interval_size snd count_].
    rewrite regenerate_count; rewrite skipto_resets_count; try lia.
    unfold uint64. rewrite Z.mod_small by lia. lia. }
  split; [exact Hc|].
  split; [rewrite Hc, base_primes_values; reflexivity|].
  split; [unfold primes_per_batch;
          rewrite Hc, base_primes_values, max_primes_value; reflexivity|].
  split; [lia|].
  split; [unfold primes_per_batch; rewrite max_primes_value; lia|].
  reflexivity.
Qed.

End IterProofs.

Section IterInstances.

Import Cxx Iter.
Open Scope Z_scope.

(** C7, as stated, fails: the tenth call after [skipto] already uses the
    base of 4 MiB / 8 = 524288 primes, while the ninth still uses 4096.
    (The base does not depend on [std::log]; the identity stands for it
    here.) *)
Lemma tenth_call_uses_large_base :
  base_primes
    (count_ (snd (get_interval_size (fun x => x) 1000
                    (regenerate (fun x => x) (repeat 1000 9)
                       (iterator_new (2 ^ 64 - 1) 1000)))))
  = 524288
  /\
  base_primes
    (count_ (snd (get_interval_size (fun x => x) 1000
                    (regenerate (fun x => x) (repeat 1000 8)
                       (iterator_new (2 ^ 64 - 1) 1000)))))
  = 4096.
Proof. split; reflexivity. Qed.

(** The tenth call after [skipto(1000)]. *)
Lemma get_interval_size_batch_witness :
  base_primes
    (count_ (snd (get_interval_size (fun x => x) 1000
                    (regenerate (fun x => x) (repeat 1000 9)
                       (snd (skipto (2 ^ 64 - 1) 1000 (mkIterator 0 0 0 false false [])))))))
  = 524288.
Proof.
  assert (Z.of_nat (List.length (repeat 1000 9)) + 1 < 2 ^ 64) as Hlt by reflexivity.
  pose proof (get_interval_size_batch (fun x => x) (2 ^ 64 - 1) 1000
                (mkIterator 0 0 0 false false []) (repeat 1000 9) 1000 Hlt) as H.
  cbv zeta in H. destruct H as (_ & H & _). exact H.
Defined.

End IterInstances.

(** ** [cmdoptions.cpp]: the digits of [-c] *)

Section CmdProofs.

Import Cxx Cmd.
Open Scope Z_scope.

Lemma optionCount_loop_eq what n flags :
  optionCount_loop what n flags =
    if n >? 0 then
      match count_flag (n mod 10) with
      | Some flag => optionCount_loop what (n / 10) (Z.lor flags flag)
      | None => (Throw what, flags)
      end
    else (Ok tt, flags).
Proof.
  rewrite optionCount_loop_equation_1.
  destruct (inspect (n >? 0)) as [b E].
  destruct b; simpl; rewrite E; reflexivity.
Qed.

Lemma decimal_digits_eq n :
  decimal_digits n = if n >? 0 then (n mod 10) :: decimal_digits (n / 10) else [].
Proof.
  rewrite decimal_digits_equation_1.
  destruct (inspect (n >? 0)) as [b E].
  destruct b; simpl; rewrite E; reflexivity.
Qed.

(** The [switch]: digit [d] from 1 to 6 stands for the flag of the
    [d]-tuplets, every other value is the [default] case. *)
Lemma count_flag_spec d :
  (1 <= d <= 6 -> count_flag d = Some (Z.shiftl Soe.COUNT_PRIMES (d - 1))) /\
  (~ 1 <= d <= 6 -> count_flag d = None).
Proof.
  split; intros H.
  - assert (d = 1 \/ d = 2 \/ d = 3 \/ d = 4 \/ d = 5 \/ d = 6) as Hd by lia.
    destruct Hd as [->|[->|[->|[->|[->| ->]]]]]; reflexivity.
  - destruct d as [|p|p]; try reflexivity.
    do 3 (destruct p as [p|p|]; try reflexivity; try lia).
Qed.

(** For a positive [n] the loop does what the claim says: it sets the
    flag of every digit when all digits are from 1 to 6, and throws
    when one is not. *)
Lemma optionCount_loop_positive what :
  forall n, 0 <= n -> forall flags,
    (Forall (fun d => 1 <= d <= 6) (decimal_digits n) ->
     optionCount_loop what n flags
     = (Ok tt, fold_left (fun f d => Z.lor f (Z.shiftl Soe.COUNT_PRIMES (d - 1)))
                 (decimal_digits n) flags)) /\
    (~ Forall (fun d => 1 <= d <= 6) (decimal_digits n) ->
     fst (optionCount_loop what n flags) = Throw what).
Proof.
  intros n Hn. pattern n. apply Z_lt_induction; [|assumption].
  clear n Hn. intros n IH flags.
  rewrite optionCount_loop_eq, decimal_digits_eq.
  destruct (n >? 0) eqn:E.
  - apply Z.gtb_lt in E.
    assert (0 <= n / 10 < n) as Hq by (split; [apply Z.div_pos; lia | apply Z.div_lt; lia]).
    destruct (count_flag_spec (n mod 10)) as [Hin Hout].
    split.
    + intros HF. inversion HF as [|d ds Hd Hds]; subst.
      rewrite (Hin Hd). cbn [fold_left].
      apply (IH (n / 10) Hq). assumption.
    + intros HF.
      destruct (Z_le_dec 1 (n mod 10)) as [H1|H1];
        [destruct (Z_le_dec (n mod 10) 6) as [H6|H6]|].
      * rewrite (Hin (conj H1 H6)).
        apply (IH (n / 10) Hq). intros Hds. apply HF. constructor; [lia | assumption].
      * rewrite Hout by lia. reflexivity.
      * rewrite Hout by lia. reflexivity.
  - split; [reflexivity|]. intros HF. exfalso. apply HF. constructor.
Qed.

(** C8 at the input the loop misses.  The value [0] has the one digit
    0, which selects no counter; [optionCount] returns normally and
    sets no flag, for the loop [for (; n > 0; n /= 10)] does not run.
    The same digit is refused in every positive value (10 throws), and
    [optionPrint] refuses the value 0.  The calculator is taken to
    evaluate the text to 0, respectively 10. *)
Theorem optionCount_accepts_zero (name : string) (opts : CmdOptions) :
  optionCount (fun _ => Ok 0) (mkOption name "-c" "0") opts
  = (Ok tt, (mkOption name "-c" "0", opts))
  /\
  fst (optionCount (fun _ => Ok 10) (mkOption name "-c" "10") opts)
  = Throw ("invalid option " ++ name)
  /\
  fst (optionPrint (fun _ => Ok 0) (mkOption name "-p" "0") opts)
  = Throw ("invalid option " ++ name).
Proof.
  destruct opts as [nums fl sz th q np st tm].
  split; [|split].
  - unfold optionCount, getValue. cbn [value is_empty argv flags].
    rewrite optionCount_loop_eq. reflexivity.
  - unfold optionCount, getValue. cbn [value is_empty argv flags].
    rewrite optionCount_loop_eq. reflexivity.
  - reflexivity.
Qed.

(** Some values of [-c], evaluated. *)
Example optionCount_loop_examples :
  optionCount_loop "e" 123 0 = (Ok tt, 7) /\
  optionCount_loop "e" 61 0 = (Ok tt, 33) /\
  optionCount_loop "e" 103 0 = (Throw "e", 4) /\
  optionCount_loop "e" 7 0 = (Throw "e", 0) /\
  optionCount_loop "e" 0 0 = (Ok tt, 0).
Proof. vm_compute. repeat split. Qed.

End CmdProofs.

(* ===================================================================== *)
(** * Part III: further properties of the same files                      *)
(* ===================================================================== *)

(** ** [pmath.hpp]: the other helpers *)

Section PmathMore.

Import Pmath.
Open Scope N_scope.

(** X1.  At each width of the unsigned integer types and for every
    [x >= 1] of the type, [ilog2 x] is the position of the highest set
    bit: [2^(ilog2 x) <= x < 2^(ilog2 x + 1)]; and [ilog2 0 = 0]. *)
Theorem ilog2_floor_log2 (bits x : N) :
  In bits [8; 16; 32; 64] ->
  x < 2 ^ bits ->
  ilog2 bits 0 = 0 /\
  (1 <= x -> ilog2 bits x = N.log2 x /\
             2 ^ ilog2 bits x <= x < 2 ^ (ilog2 bits x + 1)).
Proof.
  intros Hb Hx. simpl in Hb. split.
  - destruct Hb as [<-|[<-|[<-|[<-|[]]]]]; reflexivity.
  - intros H1.
    assert (ilog2 bits x = N.log2 x) as He.
    { destruct Hb as [<-|[<-|[<-|[<-|[]]]]].
      - now apply (ilog2_correct 8 2).
      - now apply (ilog2_correct 16 3).
      - now apply (ilog2_correct 32 4).
      - now apply (ilog2_correct 64 5). }
    split; [exact He|]. rewrite He.
    replace (N.log2 x + 1) with (N.succ (N.log2 x)) by lia.
    apply N.log2_spec. lia.
Qed.

(** The value with the top bit alone, at 32 bits. *)
Lemma ilog2_floor_log2_witness :
  ilog2 32 0 = 0 /\
  (1 <= 2 ^ 31 -> ilog2 32 (2 ^ 31) = N.log2 (2 ^ 31) /\
                  2 ^ ilog2 32 (2 ^ 31) <= 2 ^ 31 < 2 ^ (ilog2 32 (2 ^ 31) + 1)).
Proof.
  apply (ilog2_floor_log2 32 (2 ^ 31)).
  - simpl. tauto.
  - reflexivity.
Defined.

(** X2.  [isPowerOf2 x] holds exactly when [x] is [2^k] for some [k];
    in particular it fails for 0. *)
Theorem isPowerOf2_iff (x : N) :
  isPowerOf2 x = true <-> exists k, x = 2 ^ k.
Proof.
  unfold isPowerOf2. split.
  - destruct (x =? 0) eqn:E0; [discriminate|].
    apply N.eqb_neq in E0. intros H. apply N.eqb_eq in H.
    exists (N.log2 x).
    destruct (N.log2_spec x ltac:(lia)) as [Hlo Hhi].
    destruct (N.eq_dec x (2 ^ N.log2 x)) as [|Hne]; [assumption|exfalso].
    assert (N.log2 (x - 1) = N.log2 x) as Hl.
    { apply N.log2_unique; [lia|]. lia. }
    assert (N.testbit (N.land x (x - 1)) (N.log2 x) = true) as Hb.
    { rewrite N.land_spec, N.bit_log2 by lia.
      rewrite <- Hl. rewrite N.bit_log2 by lia. reflexivity. }
    rewrite H, N.bits_0 in Hb. discriminate.
  - intros [k ->].
    assert (2 ^ k <> 0) as Hnz by (apply N.pow_nonzero; lia).
    apply N.eqb_neq in Hnz. rewrite Hnz. apply N.eqb_eq.
    replace (2 ^ k - 1) with (N.ones k) by (rewrite N.ones_equiv; lia).
    rewrite N.land_ones. apply N.Div0.mod_same.
Qed.

Lemma smeared_step x y i :
  smeared x y i -> smeared x (N.lor y (N.shiftr y i)) (i + i).
Proof.
  intros H p. rewrite N.lor_spec, N.shiftr_spec', orb_true_iff, (H p), (H (p + i)).
  split.
  - intros [(q & Hq & Hb)|(q & Hq & Hb)]; exists q; (split; [lia | assumption]).
  - intros (q & Hq & Hb).
    destruct (N.lt_ge_cases q (p + i)); [left|right]; exists q; (split; [lia | assumption]).
Qed.

Lemma double_below_pow2 bits i : i < bits -> i + i < 2 ^ bits.
Proof.
  intros H.
  assert (bits - 1 < 2 ^ (bits - 1)) as Hp by (apply N.pow_gt_lin_r; lia).
  replace bits with (N.succ (bits - 1)) at 1 by lia.
  rewrite N.pow_succ_r'. lia.
Qed.

(** The loop of [floorPowerOf2] runs until the window covers the type. *)
Lemma floorPowerOf2_loop_smears bits x fuel :
  forall i y,
    1 <= i -> bits <= i + N.of_nat fuel -> smeared x y i ->
    exists j, bits <= j /\ smeared x (floorPowerOf2_loop bits fuel i y) j.
Proof.
  induction fuel as [|fuel IH]; intros i y Hi Hf Hs.
  - exists i. split; [lia | exact Hs].
  - cbn [floorPowerOf2_loop].
    destruct (i <? bits) eqn:E.
    + apply N.ltb_lt in E.
      unfold wrap. rewrite N.mod_small by (apply double_below_pow2; assumption).
      apply IH; [lia | lia | apply smeared_step; assumption].
    + apply N.ltb_ge in E. exists i. split; [assumption | exact Hs].
Qed.

Lemma smeared_all_is_ones bits x y j :
  x <> 0 -> x < 2 ^ bits -> bits <= j -> smeared x y j ->
  y = N.ones (N.succ (N.log2 x)).
Proof.
  intros Hx Hlt Hj Hs.
  assert (N.log2 x < bits) as Hl by (apply N.log2_lt_pow2; lia).
  apply N.bits_inj. intros p. apply eq_true_iff_eq.
  rewrite (Hs p), N.ones_spec_iff. split.
  - intros (q & Hq & Hb).
    destruct (N.le_gt_cases q (N.log2 x)) as [|Hgt]; [lia|].
    rewrite (N.bits_above_log2 x q Hgt) in Hb. discriminate.
  - intros Hp. exists (N.log2 x). split; [lia|]. apply N.bit_log2. assumption.
Qed.

(** X3.  For every width of at least one bit and every [x] of the type,
    [floorPowerOf2 x] is 0 for [x = 0] and otherwise the largest power
    of two that is not above [x]: it is [2^(log2 x)], at most [x] and
    more than half of [x]. *)
Theorem floorPowerOf2_spec (bits x : N) :
  1 <= bits -> x < 2 ^ bits ->
  floorPowerOf2 bits x = (if x =? 0 then 0 else 2 ^ N.log2 x) /\
  (x <> 0 -> floorPowerOf2 bits x <= x < 2 * floorPowerOf2 bits x).
Proof.
  intros Hb Hx.
  assert (floorPowerOf2 bits x = if x =? 0 then 0 else 2 ^ N.log2 x) as He.
  { unfold floorPowerOf2.
    destruct (floorPowerOf2_loop_smears bits x (N.to_nat bits) 1 x) as (j & Hj & Hs);
      [lia | lia | |].
    { intros p. split.
      - intros Hp. exists p. split; [lia | assumption].
      - intros (q & Hq & Hbq). replace p with q by lia. assumption. }
    destruct (x =? 0) eqn:E0.
    - apply N.eqb_eq in E0. subst x.
      assert (floorPowerOf2_loop bits (N.to_nat bits) 1 0 = 0) as ->.
      { apply N.bits_inj. intros p. rewrite N.bits_0.
        destruct (N.testbit _ p) eqn:Ep; [|reflexivity].
        apply Hs in Ep. destruct Ep as (q & _ & Hq). rewrite N.bits_0 in Hq. discriminate. }
      reflexivity.
    - apply N.eqb_neq in E0.
      rewrite (smeared_all_is_ones bits x _ j E0 Hx Hj Hs).
      rewrite shiftr1_half, !N.ones_equiv, N.pow_succ_r'.
      assert (0 < 2 ^ N.log2 x) as Hpos by (apply N.neq_0_lt_0, N.pow_nonzero; lia).
      replace (N.pred (2 * 2 ^ N.log2 x) / 2) with (2 ^ N.log2 x - 1)
        by (apply (N.div_unique _ 2 _ 1); lia).
      destruct (N.log2_spec x ltac:(lia)) as [Hlo _].
      unfold wrap. rewrite N.mod_small by lia. lia. }
  split; [exact He|]. intros Hnz. rewrite He.
  replace (x =? 0) with false by (symmetry; apply N.eqb_neq; assumption).
  destruct (N.log2_spec x ltac:(lia)) as [Hlo Hhi].
  rewrite N.pow_succ_r' in Hhi. lia.
Qed.

(** [floorPowerOf2(100)] at 64 bits. *)
Lemma floorPowerOf2_spec_witness :
  floorPowerOf2 64 100 = (if 100 =? 0 then 0 else 2 ^ N.log2 100) /\
  (100 <> 0 -> floorPowerOf2 64 100 <= 100 < 2 * floorPowerOf2 64 100).
Proof.
  apply (floorPowerOf2_spec 64 100).
  - lia.
  - reflexivity.
Defined.

(** X4.  For a divisor [b >= 1] and [a + b <= 2^bits], [ceilDiv a b] is
    the quotient rounded up: the least [q] with [a <= q * b]. *)
Theorem ceilDiv_rounds_up (bits a b : N) :
  1 <= b -> a + b <= 2 ^ bits ->
  a <= ceilDiv bits a b * b /\
  ceilDiv bits a b * b < a + b /\
  (forall q, a <= q * b -> ceilDiv bits a b <= q).
Proof.
  intros Hb Hsum.
  assert (0 < 2 ^ bits) as Hpos by (apply N.neq_0_lt_0, N.pow_nonzero; lia).
  assert (ceilDiv bits a b = (a + b - 1) / b) as ->.
  { unfold ceilDiv. destruct (bits <? 32).
    - unfold wrap. apply N.mod_small.
      apply N.le_lt_trans with (a + b - 1); [|lia].
      apply N.Div0.div_le_upper_bound. nia.
    - f_equal. unfold wrap. rewrite N.Div0.add_mod_idemp_l.
      replace (a + b + (2 ^ bits - 1)) with (a + b - 1 + 1 * 2 ^ bits) by lia.
      rewrite N.Div0.mod_add. apply N.mod_small. lia. }
  pose proof (N.div_mod (a + b - 1) b ltac:(lia)) as Hdm.
  pose proof (N.mod_lt (a + b - 1) b ltac:(lia)) as Hm.
  generalize dependent ((a + b - 1) mod b); intros r Hdm Hr.
  generalize dependent ((a + b - 1) / b); intros d Hdm.
  split; [nia|]. split; [nia|].
  intros q Hq. nia.
Qed.

(** [ceilDiv(10, 4) = 3]. *)
Lemma ceilDiv_rounds_up_witness :
  10 <= ceilDiv 64 10 4 * 4 /\
  ceilDiv 64 10 4 * 4 < 10 + 4 /\
  (forall q, 10 <= q * 4 -> ceilDiv 64 10 4 <= q).
Proof.
  apply (ceilDiv_rounds_up 64 10 4).
  - lia.
  - vm_compute. discriminate.
Defined.

(** Outside that range the sum wraps at 32 and 64 bits and the quotient
    is too small; at 8 and 16 bits the sum is an [int] and does not. *)
Example ceilDiv_wraps :
  ceilDiv 64 (2 ^ 64 - 1) 2 = 0 /\ ceilDiv 32 (2 ^ 32 - 1) 2 = 0 /\
  ceilDiv 8 255 2 = 128 /\ ceilDiv 16 65535 2 = 32768.
Proof. repeat split. Qed.

(** X5.  On 64-bit operands [add_overflow_safe] is the sum cut at
    [2^64 - 1] and [sub_underflow_safe] is the difference cut at 0; both
    results are values of the type, neither wraps. *)
Theorem saturating_add_sub (a b : N) :
  a < 2 ^ 64 -> b < 2 ^ 64 ->
  add_overflow_safe a b = N.min (a + b) (2 ^ 64 - 1) /\
  Z.of_N (sub_underflow_safe a b) = Z.max (Z.of_N a - Z.of_N b) 0 /\
  add_overflow_safe a b < 2 ^ 64 /\ sub_underflow_safe a b < 2 ^ 64.
Proof.
  intros Ha Hb.
  assert (add_overflow_safe a b = N.min (a + b) (2 ^ 64 - 1)) as Hadd.
  { unfold add_overflow_safe.
    destruct (2 ^ 64 - 1 - b <=? a) eqn:E.
    - apply N.leb_le in E. lia.
    - apply N.leb_gt in E. unfold wrap. rewrite N.mod_small by lia. lia. }
  assert (Z.of_N (sub_underflow_safe a b) = Z.max (Z.of_N a - Z.of_N b) 0) as Hsub.
  { unfold sub_underflow_safe.
    destruct (b <? a) eqn:E.
    - apply N.ltb_lt in E. lia.
    - apply N.ltb_ge in E. lia. }
  split; [exact Hadd|]. split; [exact Hsub|]. split; lia.
Qed.

(** The sum at the top of the range. *)
Lemma saturating_add_sub_witness :
  add_overflow_safe (2 ^ 64 - 2) 5 = N.min (2 ^ 64 - 2 + 5) (2 ^ 64 - 1) /\
  Z.of_N (sub_underflow_safe (2 ^ 64 - 2) 5) = Z.max (Z.of_N (2 ^ 64 - 2) - Z.of_N 5) 0 /\
  add_overflow_safe (2 ^ 64 - 2) 5 < 2 ^ 64 /\ sub_underflow_safe (2 ^ 64 - 2) 5 < 2 ^ 64.
Proof.
  apply (saturating_add_sub (2 ^ 64 - 2) 5); reflexivity.
Defined.

(** X6.  With [min <= max], [getInBetween min x max] lies between
    [min] and [max], is [x] itself when [x] does, is the nearer bound
    otherwise, and clamping twice changes nothing. *)
Theorem getInBetween_clamps (min x max : Z) :
  (min <= max)%Z ->
  (min <= getInBetween min x max <= max)%Z /\
  ((min <= x <= max)%Z -> getInBetween min x max = x) /\
  ((x < min)%Z -> getInBetween min x max = min) /\
  ((max < x)%Z -> getInBetween min x max = max) /\
  getInBetween min (getInBetween min x max) max = getInBetween min x max.
Proof.
  intros H. unfold getInBetween.
  destruct (x <? min)%Z eqn:E1; [apply Z.ltb_lt in E1 | apply Z.ltb_ge in E1].
  - replace (min <? min)%Z with false by (symmetry; apply Z.ltb_ge; lia).
    replace (min >? max)%Z with false
      by (symmetry; rewrite Z.gtb_ltb; apply Z.ltb_ge; lia).
    repeat split; intros; lia.
  - destruct (x >? max)%Z eqn:E2;
      rewrite Z.gtb_ltb in E2; [apply Z.ltb_lt in E2 | apply Z.ltb_ge in E2].
    + replace (max <? min)%Z with false by (symmetry; apply Z.ltb_ge; lia).
      replace (max >? max)%Z with false
        by (symmetry; rewrite Z.gtb_ltb; apply Z.ltb_ge; lia).
      repeat split; intros; lia.
    + replace (x <? min)%Z with false by (symmetry; apply Z.ltb_ge; lia).
      replace (x >? max)%Z with false
        by (symmetry; rewrite Z.gtb_ltb; apply Z.ltb_ge; lia).
      repeat split; intros; lia.
Qed.

(** The pre-sieve limits 13 and 23 around 30. *)
Lemma getInBetween_clamps_witness :
  (13 <= getInBetween 13 30 23 <= 23)%Z /\
  ((13 <= 30 <= 23)%Z -> getInBetween 13 30 23 = 30%Z) /\
  ((30 < 13)%Z -> getInBetween 13 30 23 = 13%Z) /\
  ((23 < 30)%Z -> getInBetween 13 30 23 = 23%Z) /\
  getInBetween 13 (getInBetween 13 30 23) 23 = getInBetween 13 30 23.
Proof.
  apply (getInBetween_clamps 13 30 23). lia.
Defined.

End PmathMore.

(** ** [PrimeSieve.cpp]: the tiny sieve that seeds the generator *)

Section TinySieveProofs.

Import Cxx Soe.
Open Scope Z_scope.

Lemma land_pow2_is_zero w k :
  0 <= k -> (Z.land w (2 ^ k) =? 0) = negb (Z.testbit w k).
Proof.
  intros Hk.
  assert (Z.land w (2 ^ k) = if Z.testbit w k then 2 ^ k else 0) as ->.
  { apply Z.bits_inj'. intros n Hn.
    rewrite Z.land_spec, Z.pow2_bits_eqb by assumption.
    destruct (Z.eqb_spec k n) as [->|Hne].
    - destruct (Z.testbit w n); [rewrite Z.pow2_bits_true by assumption; reflexivity|].
      rewrite Z.bits_0. reflexivity.
    - rewrite andb_false_r. destruct (Z.testbit w k).
      + rewrite Z.pow2_bits_false by assumption. reflexivity.
      + rewrite Z.bits_0. reflexivity. }
  destruct (Z.testbit w k); [|reflexivity].
  apply Z.eqb_neq. apply Z.pow_nonzero; lia.
Qed.

Lemma shiftr5_div i : Z.shiftr i 5 = i / 32.
Proof. rewrite Z.shiftr_div_pow2 by lia. reflexivity. Qed.

Lemma land31_mod i : Z.land i 31 = i mod 32.
Proof. change 31 with (Z.ones 5). rewrite Z.land_ones by lia. reflexivity. Qed.

Lemma uint32_pow2 k : 0 <= k < 32 -> uint32 (Z.shiftl 1 k) = 2 ^ k.
Proof.
  intros Hk. rewrite Z.shiftl_1_l. unfold uint32. apply Z.mod_small.
  split; [apply Z.pow_nonneg; lia|]. apply Z.pow_lt_mono_r; lia.
Qed.

(** The bit that stands for [i]. *)
Lemma isPrime_bit_testbit v i :
  0 <= i ->
  isPrime_bit v i = Z.testbit (nth (Z.to_nat (i / 32)) v 0) (i mod 32).
Proof.
  intros Hi. unfold isPrime_bit.
  pose proof (Z.mod_pos_bound i 32 ltac:(lia)) as Hm.
  rewrite shiftr5_div, land31_mod, uint32_pow2, land_pow2_is_zero by lia.
  apply negb_involutive.
Qed.

Lemma word_update_length k f v : List.length (word_update k f v) = List.length v.
Proof.
  revert k. induction v as [|w rest IH]; intros [|k]; simpl; auto.
Qed.

Lemma word_update_nth k f v n :
  nth n (word_update k f v) 0
  = if Nat.eqb n k && Nat.ltb k (List.length v) then f (nth n v 0) else nth n v 0.
Proof.
  revert k n. induction v as [|w rest IH]; intros k n.
  - simpl. destruct k, n; simpl; try reflexivity; rewrite ?andb_false_r; reflexivity.
  - destruct k as [|k], n as [|n]; simpl; try reflexivity.
    rewrite IH. reflexivity.
Qed.

Lemma nth_repeat_lt (a : Z) n k : (k < n)%nat -> nth k (repeat a n) 0 = a.
Proof.
  revert k. induction n as [|n IH]; intros k Hk; [lia|].
  destruct k as [|k]; simpl; [reflexivity|]. apply IH. lia.
Qed.

(** Clearing the bit of [j] leaves every other bit. *)
Lemma isPrime_clear_bit v i j :
  0 <= i -> 0 <= j -> (Z.to_nat (j / 32) < List.length v)%nat ->
  isPrime_bit (isPrime_clear v j) i = isPrime_bit v i && negb (i =? j).
Proof.
  intros Hi Hj Hlen.
  rewrite !isPrime_bit_testbit by assumption.
  unfold isPrime_clear. rewrite shiftr5_div, land31_mod, word_update_nth.
  pose proof (Z.mod_pos_bound i 32 ltac:(lia)) as Hmi.
  pose proof (Z.mod_pos_bound j 32 ltac:(lia)) as Hmj.
  pose proof (Z.div_mod i 32 ltac:(lia)) as Hdi.
  pose proof (Z.div_mod j 32 ltac:(lia)) as Hdj.
  pose proof (Z.div_pos i 32 Hi ltac:(lia)) as Hqi.
  pose proof (Z.div_pos j 32 Hj ltac:(lia)) as Hqj.
  replace (Nat.ltb (Z.to_nat (j / 32)) (List.length v)) with true
    by (symmetry; apply Nat.ltb_lt; assumption).
  rewrite andb_true_r.
  destruct (Nat.eqb_spec (Z.to_nat (i / 32)) (Z.to_nat (j / 32))) as [Heq|Hne].
  - rewrite Z.land_spec. f_equal.
    unfold uint32. rewrite Z.mod_pow2_bits_low by lia.
    rewrite Z.lnot_spec, Z.shiftl_1_l, Z.pow2_bits_eqb by lia.
    f_equal.
    destruct (Z.eqb_spec (j mod 32) (i mod 32)), (Z.eqb_spec i j); try reflexivity; lia.
  - replace (i =? j) with false; [rewrite andb_true_r; reflexivity|].
    symmetry. apply Z.eqb_neq. intros ->. apply Hne. reflexivity.
Qed.

Lemma isPrime_clear_length v j : List.length (isPrime_clear v j) = List.length v.
Proof. apply word_update_length. Qed.

Lemma pattern_bits m : 0 <= m < 32 -> Z.testbit 0xAAAAAAAA m = Z.odd m.
Proof.
  intros Hm.
  assert (In m (map Z.of_nat (seq 0 32))) as Hin.
  { apply in_map_iff. exists (Z.to_nat m). split; [lia|]. apply in_seq. lia. }
  simpl in Hin.
  repeat (destruct Hin as [<-|Hin]; [reflexivity|]). destruct Hin.
Qed.

(** Before sieving, the bits of the odd numbers are set. *)
Lemma initial_bit N i :
  0 <= i <= N ->
  isPrime_bit (repeat 0xAAAAAAAA (Z.to_nat (N / 32 + 1))) i = Z.odd i.
Proof.
  intros Hi. rewrite isPrime_bit_testbit by lia.
  pose proof (Z.mod_pos_bound i 32 ltac:(lia)) as Hm.
  pose proof (Z.div_mod i 32 ltac:(lia)) as Hd.
  assert (i / 32 <= N / 32) by (apply Z.div_le_mono; lia).
  assert (0 <= i / 32) by (apply Z.div_pos; lia).
  rewrite nth_repeat_lt by lia.
  rewrite pattern_bits by lia.
  rewrite Hd at 2. rewrite Z.add_comm, Z.odd_add_mul_even; [reflexivity|].
  exists 16. reflexivity.
Qed.

(** The inner loop clears the bits of [j], [j + 2i], [j + 4i], ... up to
    [N], and no other bit. *)
Lemma tiny_cross_off_spec N i fuel :
  forall j v,
    1 <= i <= N -> 0 <= j -> N < 2 ^ 30 ->
    N < j + Z.of_nat fuel ->
    (Z.to_nat (N / 32) < List.length v)%nat ->
    List.length (tiny_cross_off fuel N i j v) = List.length v /\
    forall m, 0 <= m ->
      (isPrime_bit (tiny_cross_off fuel N i j v) m = true <->
       isPrime_bit v m = true /\ ~ (j <= m <= N /\ (2 * i | m - j))).
Proof.
  induction fuel as [|fuel IH]; intros j v Hi Hj HN Hf Hlen.
  - simpl. split; [reflexivity|]. intros m Hm. split; [|tauto].
    intros Hb. split; [assumption|]. lia.
  - cbn [tiny_cross_off].
    destruct (j <=? N) eqn:E; [apply Z.leb_le in E | apply Z.leb_gt in E].
    + assert (uint32 (j + uint32 (i * 2)) = j + 2 * i) as ->.
      { unfold uint32. rewrite (Z.mod_small (i * 2)) by lia.
        rewrite Z.mod_small by lia. lia. }
      assert (Z.to_nat (j / 32) < List.length v)%nat as Hjl.
      { assert (j / 32 <= N / 32) by (apply Z.div_le_mono; lia).
        assert (0 <= j / 32) by (apply Z.div_pos; lia). lia. }
      destruct (IH (j + 2 * i) (isPrime_clear v j)) as [Hl Hb];
        [lia | lia | lia | lia | rewrite isPrime_clear_length; assumption |].
      rewrite isPrime_clear_length in Hl.
      split; [exact Hl|]. intros m Hm.
      rewrite (Hb m Hm), (isPrime_clear_bit v m j Hm Hj Hjl), andb_true_iff,
        negb_true_iff, Z.eqb_neq.
      split.
      * intros [[Hbit Hne] Hrest]. split; [assumption|].
        intros [Hrange [c Hc]]. apply Hrest.
        assert (1 <= c) as Hc1 by (destruct (Z_le_gt_dec 1 c); [assumption | nia]).
        split; [nia|].
        exists (c - 1). lia.
      * intros [Hbit Hrest]. split; [split; [assumption|]|].
        -- intros ->. apply Hrest. split; [lia|]. exists 0. lia.
        -- intros [Hrange [c Hc]]. apply Hrest. split; [lia|].
           exists (c + 1). lia.
    + split; [reflexivity|]. intros m Hm. split; [|tauto].
      intros Hb. split; [assumption|]. lia.
Qed.

(** Whether an odd [d] from 3 to [i - 1] crosses [m] off can be decided. *)
Lemma small_factor_dec m i :
  (forall d, 3 <= d < i -> Z.odd d = true -> (d | m) -> d * d <= m -> False) \/
  (exists d, 3 <= d < i /\ Z.odd d = true /\ (d | m) /\ d * d <= m).
Proof.
  destruct (Z_le_gt_dec i 3) as [|Hi]; [left; intros; lia|].
  replace i with (3 + Z.of_nat (Z.to_nat (i - 3))) by lia.
  induction (Z.to_nat (i - 3)) as [|n IH]; [left; intros; lia|].
  destruct IH as [IH|(d & Hd & Hodd & Hdiv & Hsq)].
  - assert ((3 + Z.of_nat n | m) \/ ~ (3 + Z.of_nat n | m)) as Hdec.
    { destruct (Z.eq_dec (m mod (3 + Z.of_nat n)) 0); [left|right];
        rewrite <- Z.mod_divide by lia; assumption. }
    destruct (Z.odd (3 + Z.of_nat n)) eqn:Eodd;
      [destruct Hdec as [Hdiv|Hdiv];
       [destruct (Z_le_gt_dec ((3 + Z.of_nat n) * (3 + Z.of_nat n)) m) as [Hsq|Hsq]|]|].
    + right. exists (3 + Z.of_nat n). repeat split; try assumption; lia.
    + left. intros d Hd Ho Hdv Hs.
      destruct (Z.eq_dec d (3 + Z.of_nat n)) as [->|]; [lia|].
      apply (IH d); try assumption; lia.
    + left. intros d Hd Ho Hdv Hs.
      destruct (Z.eq_dec d (3 + Z.of_nat n)) as [->|]; [contradiction|].
      apply (IH d); try assumption; lia.
    + left. intros d Hd Ho Hdv Hs.
      destruct (Z.eq_dec d (3 + Z.of_nat n)) as [->|]; [congruence|].
      apply (IH d); try assumption; lia.
  - right. exists d. repeat split; try assumption; lia.
Qed.

(** One round of the outer loop. *)
Lemma sieved_step N i v :
  0 <= N < 2 ^ 30 -> 3 <= i -> Z.odd i = true -> i * i <= N ->
  (Z.to_nat (N / 32) < List.length v)%nat ->
  sieved N i v ->
  let v' := if isPrime_bit v i
            then tiny_cross_off (S (Z.to_nat N)) N i (i * i) v
            else v in
  List.length v' = List.length v /\ sieved N (i + 2) v'.
Proof.
  intros HN Hi Hodd Hsq Hlen Hs. cbv zeta.
  assert (i <= N) as HiN by nia.
  assert (Z.odd (i + 1) = false) as Hodd1.
  { rewrite Z.odd_add, Hodd. reflexivity. }
  destruct (isPrime_bit v i) eqn:Ebit.
  - destruct (tiny_cross_off_spec N i (S (Z.to_nat N)) (i * i) v) as [Hl Hb];
      [lia | nia | lia | lia | assumption |].
    split; [exact Hl|]. intros m Hm.
    rewrite (Hb m ltac:(lia)), (Hs m Hm).
    split.
    + intros [[Hom H1] H2]. split; [assumption|].
      intros d Hd Hod Hdiv Hdsq.
      destruct (Z_lt_le_dec d i) as [Hlt|Hge]; [apply (H1 d); assumption || lia|].
      assert (d = i) as -> by (destruct (Z.eq_dec d (i + 1)) as [->|]; [congruence | lia]).
      apply H2. split; [lia|].
      destruct Hdiv as [c Hc].
      assert (Z.odd c = true) as Hoc.
      { rewrite Hc, Z.odd_mul, Hodd, andb_true_r in Hom. assumption. }
      assert (Z.odd (c - i) = false) as Hev.
      { rewrite Z.odd_sub, Hoc, Hodd. reflexivity. }
      rewrite <- Z.negb_even, negb_false_iff, Z.even_spec in Hev.
      destruct Hev as [e He]. exists e. nia.
    + intros [Hom H]. split; [split; [assumption|]|].
      * intros d Hd Hod Hdiv Hdsq. apply (H d); assumption || lia.
      * intros [Hrange [c Hc]]. apply (H i); [lia | assumption | | lia].
        exists (i + 2 * c). nia.
  - split; [reflexivity|]. intros m Hm. rewrite (Hs m Hm).
    split.
    + intros [Hom H1]. split; [assumption|].
      intros d Hd Hod Hdiv Hdsq.
      destruct (Z_lt_le_dec d i) as [Hlt|Hge]; [apply (H1 d); assumption || lia|].
      assert (d = i) as -> by (destruct (Z.eq_dec d (i + 1)) as [->|]; [congruence | lia]).
      destruct (small_factor_dec i i) as [Hnone|(d & Hd' & Hod' & Hdiv' & Hsq')].
      * assert (isPrime_bit v i = true) as Habs
          by (apply (Hs i ltac:(lia)); split; assumption).
        congruence.
      * apply (H1 d); [assumption | assumption | | nia].
        apply (Z.divide_trans d i m); assumption.
    + intros [Hom H]. split; [assumption|].
      intros d Hd Hod Hdiv Hdsq. apply (H d); assumption || lia.
Qed.

(** The outer loop stops at an [i] whose square is above [N], with the
    bits sieved up to there. *)
Lemma tiny_sieve_spec N fuel :
  forall i v,
    0 <= N < 2 ^ 30 -> 3 <= i -> Z.odd i = true ->
    (i = 3 \/ (i - 2) * (i - 2) <= N) ->
    N < i + Z.of_nat fuel ->
    (Z.to_nat (N / 32) < List.length v)%nat ->
    sieved N i v ->
    exists i', 3 <= i' /\ N < i' * i' /\ sieved N i' (tiny_sieve fuel N i v).
Proof.
  induction fuel as [|fuel IH]; intros i v HN Hi Hodd Hprev Hf Hlen Hs.
  - exists i. simpl. split; [lia|]. split; [nia | assumption].
  - cbn [tiny_sieve].
    assert (i - 2 < 2 ^ 15) as Hsmall by (destruct Hprev; nia).
    assert (uint32 (i * i) = i * i) as -> by (unfold uint32; apply Z.mod_small; nia).
    destruct (i * i <=? N) eqn:E; [apply Z.leb_le in E | apply Z.leb_gt in E].
    + assert (uint32 (i + 2) = i + 2) as -> by (unfold uint32; apply Z.mod_small; lia).
      destruct (sieved_step N i v HN Hi Hodd E Hlen Hs) as [Hl Hs'].
      apply IH;
        [ assumption | lia | rewrite Z.odd_add, Hodd; reflexivity
        | right; replace (i + 2 - 2) with i by lia; assumption
        | lia | rewrite Hl; assumption | assumption ].
    + exists i. split; [lia|]. split; assumption.
Qed.

(** When the outer loop has stopped, the set bits from 3 on are the
    primes. *)
Lemma sieved_is_prime N i v m :
  3 <= i -> N < i * i -> sieved N i v -> 3 <= m <= N ->
  isPrime_bit v m = Primes.is_prime m.
Proof.
  intros Hi Hsq Hs Hm. apply eq_true_iff_eq.
  rewrite (Hs m ltac:(lia)), is_prime_spec, <- prime_alt. unfold Z.prime.
  split.
  - intros [Hom H]. split; [lia|].
    intros n Hn [c Hc].
    assert (1 < c < m) as Hcr by nia.
    assert (Z.odd c = true /\ Z.odd n = true) as [Hoc Hon].
    { rewrite Hc, Z.odd_mul in Hom. apply andb_true_iff in Hom. assumption. }
    assert (n <> 2 /\ c <> 2) as [Hn2 Hc2] by (split; intros ->; discriminate).
    destruct (Z_le_gt_dec n c) as [Hle|Hgt].
    + apply (H n); [nia | assumption | exists c; assumption | nia].
    + apply (H c); [nia | assumption | exists n; lia | nia].
  - intros [H1 H]. split.
    + destruct (Z.odd m) eqn:Eo; [reflexivity|exfalso].
      rewrite <- Z.negb_even, negb_false_iff, Z.even_spec in Eo.
      destruct Eo as [e He].
      apply (H 2); [lia|]. exists e. lia.
    + intros d Hd Hod Hdiv Hdsq. apply (H d); [nia | assumption].
Qed.

(** The last loop hands over the numbers from [i] to [N] whose bit is
    set. *)
Lemma tiny_feed_spec N v fuel :
  forall i,
    0 <= i -> N < 2 ^ 30 -> N < i + Z.of_nat fuel ->
    tiny_feed fuel N i v = filter (isPrime_bit v) (Primes.interval i N).
Proof.
  unfold Primes.interval.
  induction fuel as [|fuel IH]; intros i Hi HN Hf.
  - simpl. replace (Z.to_nat (N - i + 1)) with 0%nat by lia. reflexivity.
  - cbn [tiny_feed].
    destruct (i <=? N) eqn:E; [apply Z.leb_le in E | apply Z.leb_gt in E].
    + assert (uint32 (i + 1) = i + 1) as -> by (unfold uint32; apply Z.mod_small; lia).
      rewrite IH by lia.
      replace (Z.to_nat (N - i + 1)) with (S (Z.to_nat (N - (i + 1) + 1))) by lia.
      cbn [seq map filter].
      replace (Z.of_nat (Z.to_nat i)) with i by lia.
      replace (S (Z.to_nat i)) with (Z.to_nat (i + 1)) by lia.
      destruct (isPrime_bit v i); reflexivity.
    + replace (Z.to_nat (N - i + 1)) with 0%nat by lia. reflexivity.
Qed.

(** X7.  For [N] below [2^30] and a pre-sieve limit from 2 on, the
    numbers the tiny sieve hands to the generator are exactly the primes
    [p] with [preSieve < p <= N], each once, in increasing order. *)
Theorem tinySieve_feeds_primes (N preSieve : Z) :
  0 <= N < 2 ^ 30 -> 2 <= preSieve < 2 ^ 30 ->
  tinySieve N preSieve = Primes.primes_in (preSieve + 1) N.
Proof.
  intros HN Hp. unfold tinySieve, Primes.primes_in.
  assert (uint32 (preSieve + 1) = preSieve + 1) as ->
    by (unfold uint32; apply Z.mod_small; lia).
  assert (0 <= N / 32) as Hq by (apply Z.div_pos; lia).
  destruct (tiny_sieve_spec N (S (Z.to_nat N)) 3
              (repeat 0xAAAAAAAA (Z.to_nat (N / 32 + 1))))
    as (i' & Hi' & Hsq & Hs); try lia.
  - reflexivity.
  - rewrite repeat_length. lia.
  - intros m Hm. rewrite (initial_bit N m Hm). split.
    + intros Ho. split; [assumption|]. intros; lia.
    + tauto.
  - rewrite tiny_feed_spec by lia.
    apply filter_ext_in. intros m Hin.
    unfold Primes.interval in Hin. apply in_map_iff in Hin.
    destruct Hin as (k & <- & Hk). apply in_seq in Hk.
    apply (sieved_is_prime N i'); try assumption. lia.
Qed.

(** The primes above 13 up to 100. *)
Lemma tinySieve_feeds_primes_witness :
  tinySieve 100 13
  = [17; 19; 23; 29; 31; 37; 41; 43; 47; 53; 59; 61; 67; 71; 73; 79; 83; 89; 97].
Proof.
  rewrite (tinySieve_feeds_primes 100 13).
  - reflexivity.
  - lia.
  - lia.
Defined.

End TinySieveProofs.

(** ** [PrimeSieve.cpp]: flags, status, and the convenience calls *)

Section FacadeMore.

Import Cxx Soe.
Open Scope Z_scope.

Lemma land_lor_keeps a f g : Z.land a g = g -> Z.land (Z.lor a f) g = g.
Proof.
  intros H. apply Z.bits_inj'. intros n Hn.
  apply (f_equal (fun z => Z.testbit z n)) in H.
  rewrite Z.land_spec in H. rewrite Z.land_spec, Z.lor_spec.
  destruct (Z.testbit a n), (Z.testbit f n), (Z.testbit g n); simpl in *; congruence.
Qed.

Lemma land_lor_self a f : Z.land (Z.lor a f) f = f.
Proof.
  apply Z.bits_inj'. intros n Hn. rewrite Z.land_spec, Z.lor_spec.
  destruct (Z.testbit a n), (Z.testbit f n); reflexivity.
Qed.

(** X8.  [addFlags(flags)] with [flags] below [1 << 20] returns
    normally, sets every bit of [flags], and clears nothing: a flag that
    was set before the call is set after it.  No other member of the
    object changes, and nothing is written.  From [1 << 20] on it throws
    and leaves the object as it was. *)
Theorem addFlags_only_adds (flags : Z) (s : PrimeSieve) (tr : list Event) :
  (flags < 2 ^ 20 ->
     exists s',
       addFlags flags (s, tr) = (Ok tt, (s', tr)) /\
       flags_ s' = Z.lor (flags_ s) flags /\
       isFlag s' flags = true /\
       (forall g, isFlag s g = true -> isFlag s' g = true) /\
       s' = set_flags (flags_ s') s /\
       start_ s' = start_ s /\ stop_ s' = stop_ s /\
       preSieve_ s' = preSieve_ s /\ sieveSize_ s' = sieveSize_ s /\
       parent_ s' = parent_ s /\ counts_ s' = counts_ s /\
       sumSegments_ s' = sumSegments_ s /\ interval_ s' = interval_ s /\
       status_ s' = status_ s /\ seconds_ s' = seconds_ s /\
       callback32_ s' = callback32_ s /\ callback64_ s' = callback64_ s /\
       callback32_OOP_ s' = callback32_OOP_ s /\
       callback64_OOP_ s' = callback64_OOP_ s /\ obj_ s' = obj_ s) /\
  (2 ^ 20 <= flags -> addFlags flags (s, tr) = (Throw "invalid flags", (s, tr))).
Proof.
  unfold addFlags. change (Z.shiftl 1 20) with (2 ^ 20). split; intros H.
  - replace (flags >=? 2 ^ 20) with false
      by (symmetry; rewrite Z.geb_leb; apply Z.leb_gt; assumption).
    exists (set_flags (Z.lor (flags_ s) flags) s).
    split; [reflexivity|]. split; [reflexivity|].
    unfold isFlag. cbn [flags_ set_flags].
    split; [apply Z.eqb_eq, land_lor_self|].
    split; [|repeat split].
    intros g Hg. apply Z.eqb_eq in Hg. apply Z.eqb_eq, land_lor_keeps. assumption.
  - replace (flags >=? 2 ^ 20) with true by (symmetry; apply Z.geb_le; assumption).
    reflexivity.
Qed.

(** X9.  [sieve(start, stop)] checks its arguments from left to right
    and stores each one as soon as it is accepted: when [start] is
    refused nothing has changed, and when [start] is accepted and
    [stop] is refused the call throws with the new start number already
    stored next to the old stop number; nothing is sieved in either
    case. *)
Theorem sieve2_stores_start_first
  (engine : Engine) (elapsed : float) (start stop : Z) (s : PrimeSieve) (tr : list Event) :
  (UINT64_MAX - UINT32_MAX * 10 <= start ->
     sieve2 engine elapsed start stop (s, tr)
     = (Throw "START must be < (2^64-1) - (2^32-1) * 10", (s, tr)))
  /\
  (start < UINT64_MAX - UINT32_MAX * 10 -> UINT64_MAX - UINT32_MAX * 10 <= stop ->
     sieve2 engine elapsed start stop (s, tr)
     = (Throw "STOP must be < (2^64-1) - (2^32-1) * 10", (set_start start s, tr))
     /\ getStart (set_start start s) = start
     /\ getStop (set_start start s) = getStop s
     /\ counts_ (set_start start s) = counts_ s).
Proof.
  unfold sieve2, setStart, setStop.
  change (uint64 (UINT64_MAX - uint64 (UINT32_MAX * 10)))
    with (UINT64_MAX - UINT32_MAX * 10).
  split.
  - intros H.
    replace (start >=? UINT64_MAX - UINT32_MAX * 10) with true
      by (symmetry; apply Z.geb_le; assumption).
    reflexivity.
  - intros H1 H2.
    replace (start >=? UINT64_MAX - UINT32_MAX * 10) with false
      by (symmetry; rewrite Z.geb_leb; apply Z.leb_gt; assumption).
    replace (stop >=? UINT64_MAX - UINT32_MAX * 10) with true
      by (symmetry; apply Z.geb_le; assumption).
    repeat split.
Qed.

(** X10.  [updateStatus(segment)] on a worker changes none of the
    worker's own members; the segment is added, in 64-bit arithmetic,
    to the sum kept by the object at the end of the chain of parents. *)
Theorem updateStatus_reaches_root (s : PrimeSieve) (segment : Z) :
  sumSegments_ (root (fst (updateStatus_obj s segment)))
  = uint64 (sumSegments_ (root s) + segment)
  /\
  (parent_ s <> None ->
   sumSegments_ (fst (updateStatus_obj s segment)) = sumSegments_ s /\
   status_ (fst (updateStatus_obj s segment)) = status_ s /\
   counts_ (fst (updateStatus_obj s segment)) = counts_ s /\
   config_of (fst (updateStatus_obj s segment)) = config_of s).
Proof.
  split.
  - revert s. fix IH 1.
    intros [st sp ps ss fl [p|] c sm iv stt sec c1 c2 c3 c4 o].
    + specialize (IH p). cbn [updateStatus_obj parent_].
      destruct (updateStatus_obj p segment) as [p' out] eqn:E.
      cbn [fst] in *. cbn [root parent_ set_parent]. exact IH.
    + cbn [updateStatus_obj parent_ root].
      match goal with |- context [if ?b then _ else _] => destruct b end; reflexivity.
  - intros Hp.
    destruct s as [st sp ps ss fl [p|] c sm iv stt sec c1 c2 c3 c4 o];
      [|contradiction Hp; reflexivity].
    cbn [updateStatus_obj parent_].
    destruct (updateStatus_obj p segment) as [p' out]. repeat split.
Qed.

Section SmallIntervals.

Variable engine : Engine.
Variable elapsed : float.

(** X11.  Over an interval that ends below 7 the engine is not run, and
    [generatePrimes(start, stop, callback)] (64-bit) calls [callback]
    exactly for the primes of [[start, stop]]: once each, in increasing
    order, and nothing else is written. *)
Theorem generatePrimes64_small_interval
  (start stop callback : Z) (s : PrimeSieve) (tr : list Event) :
  callback <> NULL -> 0 <= start -> start <= stop -> stop <= 6 ->
  fst (generatePrimes64 engine elapsed start stop callback (s, tr)) = Ok tt /\
  snd (snd (generatePrimes64 engine elapsed start stop callback (s, tr)))
  = tr ++ map (EvCallback64 callback) (Primes.primes_in start stop).
Proof.
  intros Hcb H0 Hle H6.
  assert ((callback =? NULL) = false) as Ecb by (apply Z.eqb_neq; assumption).
  unfold generatePrimes64. rewrite Ecb.
  assert (start = 0 \/ start = 1 \/ start = 2 \/ start = 3 \/ start = 4 \/
          start = 5 \/ start = 6) as Hs by lia.
  assert (stop = 0 \/ stop = 1 \/ stop = 2 \/ stop = 3 \/ stop = 4 \/
          stop = 5 \/ stop = 6) as Ht by lia.
  destruct Hs as [->|[->|[->|[->|[->|[->| ->]]]]]];
    destruct Ht as [->|[->|[->|[->|[->|[->| ->]]]]]];
    try lia;
    (split; [vm_compute; reflexivity
            | lazy -[app]; rewrite <- ?app_assoc, ?app_nil_r; reflexivity]).
Qed.

End SmallIntervals.

(** A new object and the interval [[0, 6]]. *)
Lemma generatePrimes64_small_interval_witness :
  fst (generatePrimes64 prime_counting_engine 0%float 0 6 7 (PrimeSieve_new, [])) = Ok tt /\
  snd (snd (generatePrimes64 prime_counting_engine 0%float 0 6 7 (PrimeSieve_new, [])))
  = [] ++ map (EvCallback64 7) (Primes.primes_in 0 6).
Proof.
  apply (generatePrimes64_small_interval prime_counting_engine 0%float 0 6 7
           PrimeSieve_new []).
  - discriminate.
  - lia.
  - lia.
  - lia.
Defined.

End FacadeMore.

(** ** [iterator.cpp]: positioning and regeneration *)

Section IterMore.

Import Cxx Iter.
Open Scope Z_scope.

Variable log : float -> float.
Variable max_stop : Z.
Variable generate_primes_api : Z -> Z -> list Z.

Lemma uint64_of_double_range d : 0 <= uint64_of_double d < 2 ^ 64.
Proof.
  unfold uint64_of_double.
  destruct (Prim2SF d); try lia.
  unfold uint64. apply Z.mod_pos_bound. lia.
Qed.

Lemma get_interval_size_range n it : 0 <= fst (get_interval_size log n it) < 2 ^ 64.
Proof. cbn [get_interval_size fst]. apply uint64_of_double_range. Qed.





(** X13.  Whatever [std::log] returns, the batch of [get_interval_size]
    is between 32 KiB / 8 = 4096 and 512 MiB / 8 = 67108864 primes, and
    never below the base of the call. *)
Theorem primes_per_batch_bounds (count n : Z) :
  4096 <= primes_per_batch log count n <= 67108864 /\
  base_primes count <= primes_per_batch log count n.
Proof.
  unfold primes_per_batch. rewrite base_primes_values, max_primes_value.
  destruct (count <? 10); lia.
Qed.

(** X14.  When the buffer is regenerated forward, the new buffer is
    never empty, the cursor is at its start, and the interval asked for
    begins at [start_] on the first call and one above the last buffered
    number afterwards, and ends at [start + interval_size] or at
    [max_stop], whichever is smaller: never beyond [max_stop]. *)
Theorem generate_next_primes_regenerates (it : iterator) :
  adjust_skipto_ it = false ->
  let start := if first_ it then start_ it else uint64 (last (primes_ it) 0 + 1) in
  let size := fst (get_interval_size log start it) in
  0 <= start -> size <= max_stop -> max_stop < 2 ^ 64 ->
  let it' := generate_next_primes log max_stop generate_primes_api it in
  let stop := Z.min (start + size) max_stop in
  primes_ it'
  = match generate_primes_api start stop with [] => [0] | p :: rest => p :: rest end /\
  primes_ it' <> [] /\ i_ it' = 0 /\ first_ it' = false /\
  count_ it' = uint64 (count_ it + 1) /\ start_ it' = start_ it.
Proof.
  intros Hadj start size H0 Hsize Hmax it' stop.
  pose proof (get_interval_size_range start it) as Hs0. fold size in Hs0.
  subst it'. unfold generate_next_primes. rewrite Hadj. fold start.
  assert (get_interval_size log start it
          = (size, snd (get_interval_size log start it))) as Hg
    by (subst size; destruct (get_interval_size log start it); reflexivity).
  rewrite Hg.
  assert ((if start <? uint64 (max_stop - size)
           then uint64 (start + size) else max_stop) = stop) as ->.
  { subst stop. unfold uint64. rewrite (Z.mod_small (max_stop - size)) by lia.
    destruct (start <? max_stop - size) eqn:E;
      [apply Z.ltb_lt in E | apply Z.ltb_ge in E].
    - rewrite Z.mod_small by lia. lia.
    - lia. }
  cbn [generate_primes primes_ i_ first_ count_ start_ adjust_skipto_
       get_interval_size snd].
  split; [reflexivity|]. split; [|repeat split].
  destruct (generate_primes_api start stop); discriminate.
Qed.

(** X15.  When the buffer is regenerated backward, the new buffer is
    never empty, the cursor is behind its last element, and the interval
    asked for ends at [start_] on the first call and one below the first
    buffered number afterwards (at 0 when that number is 0 or 1), and
    begins [interval_size] lower, but never below 0. *)
Theorem generate_previous_primes_regenerates (it : iterator) :
  adjust_skipto_ it = false ->
  let stop := if first_ it then start_ it else Z.max (hd 0 (primes_ it) - 1) 0 in
  let size := fst (get_interval_size log stop it) in
  0 <= stop < 2 ^ 64 -> 0 <= hd 0 (primes_ it) < 2 ^ 64 ->
  let it' := generate_previous_primes log generate_primes_api it in
  let start := Z.max (stop - size) 0 in
  primes_ it'
  = match generate_primes_api start stop with [] => [0] | p :: rest => p :: rest end /\
  primes_ it' <> [] /\ i_ it' = Z.of_nat (List.length (primes_ it')) /\
  first_ it' = false /\ 0 <= start <= stop.
Proof.
  intros Hadj stop size Hstop Hfront it' start.
  pose proof (get_interval_size_range stop it) as Hs0. fold size in Hs0.
  subst it'. unfold generate_previous_primes. rewrite Hadj.
  assert ((if first_ it then start_ it
           else if hd 0 (primes_ it) >? 1 then uint64 (hd 0 (primes_ it) - 1) else 0)
          = stop) as ->.
  { subst stop. destruct (first_ it); [reflexivity|].
    destruct (hd 0 (primes_ it) >? 1) eqn:E; rewrite Z.gtb_ltb in E;
      [apply Z.ltb_lt in E | apply Z.ltb_ge in E].
    - unfold uint64. rewrite Z.mod_small by lia. lia.
    - lia. }
  assert (get_interval_size log stop it
          = (size, snd (get_interval_size log stop it))) as Hg
    by (subst size; destruct (get_interval_size log stop it); reflexivity).
  rewrite Hg.
  assert ((if stop >? size then uint64 (stop - size) else 0) = start) as ->.
  { subst start. destruct (stop >? size) eqn:E; rewrite Z.gtb_ltb in E;
      [apply Z.ltb_lt in E | apply Z.ltb_ge in E].
    - unfold uint64. rewrite Z.mod_small by lia. lia.
    - lia. }
  cbn [generate_primes primes_ i_ first_ count_ start_ adjust_skipto_].
  split; [reflexivity|]. split; [|split; [reflexivity|split; [reflexivity|]]].
  - destruct (generate_primes_api start stop); discriminate.
  - subst start. lia.
Qed.

End IterMore.

Section IterInstances2.

Import Cxx Iter.
Open Scope Z_scope.


(** The first forward regeneration of a new iterator at 1000, with an
    empty answer: the buffer holds the one element 0. *)
Lemma generate_next_primes_regenerates_witness :
  primes_ (generate_next_primes (fun x => x) (2 ^ 64 - 1) (fun _ _ => [])
             (iterator_new (2 ^ 64 - 1) 1000))
  = [0].
Proof.
  assert (adjust_skipto_ (iterator_new (2 ^ 64 - 1) 1000) = false) as Hadj by reflexivity.
  pose proof (generate_next_primes_regenerates (fun x => x) (2 ^ 64 - 1) (fun _ _ => [])
                (iterator_new (2 ^ 64 - 1) 1000) Hadj) as H.
  cbv zeta in H. destruct H as (H & _).
  - vm_compute. discriminate.
  - vm_compute. discriminate.
  - reflexivity.
  - exact H.
Defined.

(** The first backward regeneration of a new iterator at 1000. *)
Lemma generate_previous_primes_regenerates_witness :
  primes_ (generate_previous_primes (fun x => x) (fun _ _ => [])
             (iterator_new (2 ^ 64 - 1) 1000))
  = [0].
Proof.
  assert (adjust_skipto_ (iterator_new (2 ^ 64 - 1) 1000) = false) as Hadj by reflexivity.
  pose proof (generate_previous_primes_regenerates (fun x => x) (fun _ _ => [])
                (iterator_new (2 ^ 64 - 1) 1000) Hadj) as H.
  cbv zeta in H. destruct H as (H & _).
  - vm_compute. split; [discriminate | reflexivity].
  - vm_compute. split; [discriminate | reflexivity].
  - exact H.
Defined.

End IterInstances2.

(** ** [cmdoptions.cpp]: splitting and reading options *)

Section CmdMore.

Import Cxx Cmd.
Open Scope Z_scope.

Lemma find_first_of_app chars name s :
  find_first_of chars name = None ->
  find_first_of chars (name ++ s)%string
  = option_map (Nat.add (String.length name)) (find_first_of chars s).
Proof.
  induction name as [|c rest IH]; intros H.
  - simpl. destruct (find_first_of chars s); reflexivity.
  - cbn [find_first_of] in H. cbn [append find_first_of String.length].
    destruct (is_one_of chars c); [discriminate|].
    destruct (find_first_of chars rest) eqn:E; [discriminate|].
    rewrite IH by reflexivity.
    destruct (find_first_of chars s); reflexivity.
Qed.

Lemma substr_to_app name s : substr_to (String.length name) (name ++ s)%string = name.
Proof.
  induction name as [|c rest IH]; [destruct s; reflexivity|].
  cbn [append String.length substr_to]. rewrite IH. reflexivity.
Qed.

Lemma substr_from_app name s k :
  substr_from (String.length name + k) (name ++ s)%string = substr_from k s.
Proof.
  induction name as [|c rest IH]; [reflexivity|].
  cbn [append String.length Nat.add substr_from]. exact IH.
Qed.

Lemma get_app name c s :
  String.get (String.length name) (name ++ String c s)%string = Some c.
Proof. induction name as [|d rest IH]; [reflexivity | exact IH]. Qed.

Lemma digit_is_no_equals c :
  is_one_of "0123456789" c = true ->
  is_one_of delimiters c = true /\ Ascii.eqb c "="%char = false.
Proof.
  unfold is_one_of, delimiters. cbn [list_ascii_of_string existsb].
  intros H. split; [rewrite H; apply orb_true_r|].
  repeat (apply orb_true_iff in H;
          destruct H as [H|H]; [apply Ascii.eqb_eq in H; subst c; reflexivity|]).
  discriminate.
Qed.

(** X17.  Let [name] contain none of the characters [=0123456789].
    [makeOption] splits [name=v] and [name] followed by text that begins
    with a digit into the option [name] and the value ([v], or the text
    from the digit on); an argument with no such character is an option
    without a value.  An empty [name] with a value stands for
    [--number]; the result is returned when the option is a key of
    [optionMap], and "unknown option" is thrown otherwise. *)
Theorem makeOption_splits (name v : string) :
  find_first_of delimiters name = None ->
  let result (argv value : string) : Result Option :=
    let key :=
      if is_empty name && negb (is_empty value) then "--number"%string else name in
    if optionMap_count key
    then Ok (mkOption argv key value)
    else Throw ("unknown option " ++ argv)%string in
  makeOption (name ++ String "=" v)%string = result (name ++ String "=" v)%string v /\
  (forall c, is_one_of "0123456789" c = true ->
     makeOption (name ++ String c v)%string
     = result (name ++ String c v)%string (String c v)) /\
  makeOption name = result name EmptyString.
Proof.
  intros Hname result. subst result. cbv beta.
  assert (forall c, is_one_of delimiters c = true ->
            find_first_of delimiters (name ++ String c v)%string
            = Some (String.length name)) as Hfind.
  { intros c Hc. rewrite (find_first_of_app delimiters name _ Hname).
    cbn [find_first_of]. rewrite Hc. cbn [option_map]. rewrite Nat.add_0_r. reflexivity. }
  split; [|split].
  - unfold makeOption.
    rewrite (Hfind "="%char eq_refl), get_app, substr_to_app.
    change (Ascii.eqb "=" "=") with true. cbv iota.
    rewrite (substr_from_app name (String "=" v) 1). cbn [substr_from str value Cmd.argv].
    destruct (is_empty name && negb (is_empty v)); cbn [str value Cmd.argv];
      match goal with |- context [optionMap_count ?k] =>
        destruct (optionMap_count k) end; reflexivity.
  - intros c Hc. destruct (digit_is_no_equals c Hc) as [Hd He].
    unfold makeOption.
    rewrite (Hfind c Hd), get_app, substr_to_app, He.
    rewrite (substr_from_app name (String c v) 0). cbn [substr_from str value Cmd.argv].
    destruct (is_empty name && negb (is_empty (String c v))); cbn [str value Cmd.argv];
      match goal with |- context [optionMap_count ?k] =>
        destruct (optionMap_count k) end; reflexivity.
  - unfold makeOption. rewrite Hname. cbn [str value Cmd.argv is_empty negb].
    rewrite andb_false_r. cbn [str].
    destruct (optionMap_count name); reflexivity.
Qed.

(** [--threads=8] and [--threads8]. *)
Lemma makeOption_splits_witness :
  makeOption "--threads=8" = Ok (mkOption "--threads=8" "--threads" "8") /\
  makeOption "--threads8" = Ok (mkOption "--threads8" "--threads" "8").
Proof.
  assert (find_first_of delimiters "--threads" = None) as Hname by reflexivity.
  pose proof (makeOption_splits "--threads" "" Hname) as H. cbv zeta in H.
  destruct H as (_ & H8 & _).
  pose proof (makeOption_splits "--threads" "8" Hname) as H. cbv zeta in H.
  destruct H as (He & _ & _).
  split; [exact He | exact (H8 "8"%char eq_refl)].
Defined.

Section WithCalculator.

Variable eval_int : string -> Result Z.

(** X18.  [optionPrint] turns [quiet] on before it reads the value, so
    also when it throws.  With the value (or "1" when there is none)
    evaluating to [n], it sets the print flag of the [n]-tuplets for [n]
    from 1 to 6 and keeps every flag that was set, and for every other
    [n] it throws "invalid option" with the flags as they were. *)
Theorem optionPrint_reads_1_to_6 (opt : Option) (opts : CmdOptions) (n : Z) :
  let opt1 := if is_empty (value opt) then mkOption (argv opt) (str opt) "1" else opt in
  eval_int (value opt1) = Ok n ->
  (1 <= n <= 6 ->
     optionPrint eval_int opt opts
     = (Ok tt, (opt1, set_flags (Z.lor (flags opts) (Z.shiftl Soe.PRINT_PRIMES (n - 1)))
                        (set_quiet true opts)))) /\
  (~ 1 <= n <= 6 ->
     optionPrint eval_int opt opts
     = (Throw ("invalid option " ++ argv opt)%string, (opt1, set_quiet true opts))).
Proof.
  intros opt1 Heval.
  assert (is_empty (value opt1) = false) as Hne.
  { subst opt1. destruct (is_empty (value opt)) eqn:E; [reflexivity | exact E]. }
  assert (argv opt1 = argv opt) as Hargv
    by (subst opt1; destruct (is_empty (value opt)); reflexivity).
  unfold optionPrint, getValue. fold opt1. rewrite Hne, Heval, Hargv.
  split; intros Hn.
  - assert (n = 1 \/ n = 2 \/ n = 3 \/ n = 4 \/ n = 5 \/ n = 6) as Hc by lia.
    destruct Hc as [->|[->|[->|[->|[->| ->]]]]]; reflexivity.
  - destruct n as [|p|p]; try reflexivity.
    do 3 (destruct p as [p|p|]; try reflexivity; try lia).
Qed.

(** X16.  [optionCount] reads the value (or "1" when there is none) as
    a number [n].  For a positive [n] whose decimal digits are all from 1
    to 6 it sets the count flag of every digit and keeps every flag that
    was set; when one digit is 0, 7, 8 or 9 it throws "invalid option".
    It leaves [quiet] and the other fields as they were. *)
Theorem optionCount_sets_digit_flags (opt : Option) (opts : CmdOptions) (n : Z) :
  let opt1 := if is_empty (value opt) then mkOption (argv opt) (str opt) "1" else opt in
  eval_int (value opt1) = Ok n ->
  0 < n ->
  (Forall (fun d => 1 <= d <= 6) (decimal_digits n) ->
     optionCount eval_int opt opts
     = (Ok tt, (opt1, set_flags
                        (fold_left (fun f d => Z.lor f (Z.shiftl Soe.COUNT_PRIMES (d - 1)))
                           (decimal_digits n) (flags opts))
                        opts))) /\
  (~ Forall (fun d => 1 <= d <= 6) (decimal_digits n) ->
     fst (optionCount eval_int opt opts) = Throw ("invalid option " ++ argv opt)%string).
Proof.
  intros opt1 Heval Hn.
  assert (is_empty (value opt1) = false) as Hne.
  { subst opt1. destruct (is_empty (value opt)) eqn:E; [reflexivity | exact E]. }
  assert (argv opt1 = argv opt) as Hargv
    by (subst opt1; destruct (is_empty (value opt)); reflexivity).
  unfold optionCount, getValue. fold opt1. rewrite Hne, Heval, Hargv.
  destruct (optionCount_loop_positive ("invalid option " ++ argv opt)%string n
              ltac:(lia) (flags opts)) as [Hok Hbad].
  split; intros Hd.
  - rewrite (Hok Hd). reflexivity.
  - specialize (Hbad Hd).
    destruct (optionCount_loop ("invalid option " ++ argv opt)%string n (flags opts))
      as [r f]. exact Hbad.
Qed.

End WithCalculator.

(** [-c123] with a calculator that reads "123" as 123: the flags of the
    primes, the twins and the triplets. *)
Lemma optionCount_sets_digit_flags_witness :
  optionCount (fun _ => Ok 123) (mkOption "-c123" "-c" "123")
    (mkCmdOptions [] 0 0 0 false false true false)
  = (Ok tt, (mkOption "-c123" "-c" "123",
             mkCmdOptions []
               (Z.lor Soe.COUNT_PRIMES (Z.lor Soe.COUNT_TWINS Soe.COUNT_TRIPLETS))
               0 0 false false true false)).
Proof.
  pose proof (optionCount_sets_digit_flags (fun _ => Ok 123) (mkOption "-c123" "-c" "123")
                (mkCmdOptions [] 0 0 0 false false true false) 123) as H.
  cbv zeta in H. assert (0 < 123) as Hpos by lia.
  destruct (H eq_refl Hpos) as [Hok _].
  rewrite Hok; [reflexivity|].
  assert (decimal_digits 123 = [3; 2; 1]) as -> by (vm_compute; reflexivity).
  repeat (constructor; [lia|]). constructor.
Defined.

(** [-p3] with a calculator that reads "3" as 3. *)
Lemma optionPrint_reads_1_to_6_witness :
  optionPrint (fun _ => Ok 3) (mkOption "-p3" "-p" "3")
    (mkCmdOptions [] 0 0 0 false false true false)
  = (Ok tt, (mkOption "-p3" "-p" "3",
             mkCmdOptions [] Soe.PRINT_TRIPLETS 0 0 true false true false)).
Proof.
  pose proof (optionPrint_reads_1_to_6 (fun _ => Ok 3) (mkOption "-p3" "-p" "3")
                (mkCmdOptions [] 0 0 0 false false true false) 3) as H.
  cbv zeta in H. destruct (H eq_refl) as [H3 _].
  rewrite (H3 ltac:(lia)). reflexivity.
Defined.

End CmdMore.
